(** * Bayesian Decomposition (methods/factorization/bd.py)

    A shallow embedding of the Gibbs sampler [Bd] and the properties its
    specification states about it, with the preprocessing step of the faces
    example (nimfa/examples/cbcl_images.py).

    - Python floats are IEEE binary64 values: [spec_float] with precision 53
      and maximal exponent 1024, with the operations of [SpecFloat].
    - numpy matrices are a shape and an indexing function; the vectors handed
      to the sampler are lists of floats.  The pass over the columns of W
      hands it two columns; the pass over the rows of H hands it a row and a
      column, which numpy broadcasts against each other:
      [_randr_transposed] is the sampler on such a pair.
    - Python exceptions are the [Raise] outcomes of a small error monad.
    - scipy's [erfc] and [erfcinv], numpy's [log], the random source, the
      seeding strategy and the [sqrt] that utils.linalg exports are not part
      of the sources at hand: they are the fields of an environment record,
      over which every theorem is universally quantified. *)

From Stdlib Require Import ZArith Bool List Lia.
From Stdlib Require Import Floats.SpecFloat.
From stdpp Require Import base list.
Import ListNotations.

Local Open Scope Z_scope.

(** ** Floats *)

Module F.

Definition float : Type := spec_float.

Definition prec : Z := 53.
Definition emax : Z := 1024.

Definition add : float -> float -> float := SFadd prec emax.
Definition sub : float -> float -> float := SFsub prec emax.
Definition mul : float -> float -> float := SFmul prec emax.
Definition div : float -> float -> float := SFdiv prec emax.
(** The correctly rounded square root (NaN below zero). *)
Definition sqrt : float -> float := SFsqrt prec emax.
Definition opp : float -> float := SFopp.
Definition abs : float -> float := SFabs.

Definition ltb : float -> float -> bool := SFltb.
Definition leb : float -> float -> bool := SFleb.

(** Conversion of a Python int (rounding to nearest even). *)
Definition of_Z (z : Z) : float := binary_normalize prec emax z 0 false.

Definition zero : float := S754_zero false.
Definition one : float := of_Z 1.
Definition two : float := of_Z 2.

(** A Python bool used in arithmetic: [True] is 1, [False] is 0. *)
Definition of_bool (b : bool) : float := if b then one else zero.

Definition isnan (x : float) : bool :=
  match x with S754_nan => true | _ => false end.

Definition isinf (x : float) : bool :=
  match x with S754_infinity _ => true | _ => false end.

(** Truth value of a float: every float but the two zeros is true. *)
Definition truthy (x : float) : bool :=
  match x with S754_zero _ => false | _ => true end.

End F.

Abbreviation float := F.float.

(** ** Exceptions *)

Inductive exn : Type :=
| IndexError
| ValueError
| ZeroDivisionError
| UnboundLocalError
| OutOfFuel.   (* not a Python exception: the bound of a modelled loop was hit *)

Inductive result (A : Type) : Type :=
| Ok (a : A)
| Raise (e : exn).

Arguments Ok {A} a.
Arguments Raise {A} e.

(** Whether a computation returned. *)
Definition is_Ok {A : Type} (r : result A) : bool :=
  match r with
  | Ok _ => true
  | Raise _ => false
  end.

#[global] Instance result_ret : MRet result := fun A a => Ok a.

#[global] Instance result_bind : MBind result := fun A B f c =>
  match c with
  | Ok a => f a
  | Raise e => Raise e
  end.

(** A loop [for x in xs] over a state, stopping at the first exception. *)
Fixpoint for_each {A S : Type} (xs : list A) (body : A -> S -> result S) (s : S)
  : result S :=
  match xs with
  | [] => Ok s
  | x :: xs' => s' ← body x s; for_each xs' body s'
  end.

(** [n] repetitions of a fallible step. *)
Fixpoint repeat_step {S : Type} (n : nat) (step : S -> result S) (s : S)
  : result S :=
  match n with
  | O => Ok s
  | Datatypes.S n' => s' ← step s; repeat_step n' step s'
  end.

(** [xrange(stop)] and [xrange(start, stop)] as lists of indices. *)
Definition xrange (stop : Z) : list nat := seq 0 (Z.to_nat stop).

Definition xrange2 (start : nat) (stop : Z) : list nat :=
  seq start (Z.to_nat (stop - Z.of_nat start)).

(** ** Vectors and matrices *)

Definition vec : Type := list float.

Record matrix : Type := {
  shape0 : nat;                 (* number of rows *)
  shape1 : nat;                 (* number of columns *)
  item : nat -> nat -> float    (* entry (i, j), read only within the shape *)
}.

Module Vec.

(** Sum of the entries, accumulated from the left. *)
Definition sum (v : vec) : float := fold_left F.add v F.zero.

(** An elementwise operation of two vectors; shapes that differ raise. *)
Fixpoint zip_with (f : float -> float -> float) (u v : vec) : result vec :=
  match u, v with
  | [], [] => Ok []
  | x :: u', y :: v' => r ← zip_with f u' v'; Ok (f x y :: r)
  | _, _ => Raise ValueError
  end.

(** [v[j]] for an index [j] of a loop. *)
Definition get (v : vec) (j : nat) : result float :=
  match v !! j with
  | Some x => Ok x
  | None => Raise IndexError
  end.

End Vec.

Module Mat.

Definition in_shape (A : matrix) (i j : nat) : bool :=
  (i <? shape0 A)%nat && (j <? shape1 A)%nat.

(** [A[i, j]] *)
Definition get (A : matrix) (i j : nat) : result float :=
  if in_shape A i j then Ok (item A i j) else Raise IndexError.

(** [A[i, j] = x], in place. *)
Definition set (A : matrix) (i j : nat) (x : float) : result matrix :=
  if in_shape A i j
  then Ok {| shape0 := shape0 A; shape1 := shape1 A;
             item := fun i' j' =>
               if (i' =? i)%nat && (j' =? j)%nat then x else item A i' j' |}
  else Raise IndexError.

(** [A.T] *)
Definition T (A : matrix) : matrix :=
  {| shape0 := shape1 A; shape1 := shape0 A; item := fun i j => item A j i |}.

(** The all-zero matrix of a shape. *)
Definition zeros (r c : nat) : matrix :=
  {| shape0 := r; shape1 := c; item := fun _ _ => F.zero |}.

(** [A[:, n]] *)
Definition col (A : matrix) (n : nat) : result vec :=
  if (n <? shape1 A)%nat
  then Ok (map (fun i => item A i n) (seq 0 (shape0 A)))
  else Raise IndexError.

(** [A[n, :]] *)
Definition row (A : matrix) (n : nat) : result vec :=
  if (n <? shape0 A)%nat
  then Ok (map (fun j => item A n j) (seq 0 (shape1 A)))
  else Raise IndexError.

(** [A[:, nn]]: the columns listed in [nn], in that order. *)
Definition cols (A : matrix) (nn : list nat) : result matrix :=
  if forallb (fun c => (c <? shape1 A)%nat) nn
  then Ok {| shape0 := shape0 A; shape1 := length nn;
             item := fun i k => item A i (nth k nn 0%nat) |}
  else Raise IndexError.

(** [A[nn, :]]: the rows listed in [nn], in that order. *)
Definition rows (A : matrix) (nn : list nat) : result matrix :=
  if forallb (fun r => (r <? shape0 A)%nat) nn
  then Ok {| shape0 := length nn; shape1 := shape1 A;
             item := fun k j => item A (nth k nn 0%nat) j |}
  else Raise IndexError.

(** [A[nn, n]] *)
Definition rows_col (A : matrix) (nn : list nat) (n : nat) : result vec :=
  B ← rows A nn; col B n.

(** [A[n, nn]] *)
Definition row_cols (A : matrix) (n : nat) (nn : list nat) : result vec :=
  B ← cols A nn; row B n.

(** All entries, row after row. *)
Definition entries (A : matrix) : vec :=
  flat_map (fun i => map (fun j => item A i j) (seq 0 (shape1 A)))
           (seq 0 (shape0 A)).

(** [A.sum()] *)
Definition sum (A : matrix) : float := Vec.sum (entries A).

(** An elementwise operation of two matrices of one shape. *)
Definition zip_with (f : float -> float -> float) (A B : matrix)
  : result matrix :=
  if (shape0 A =? shape0 B)%nat && (shape1 A =? shape1 B)%nat
  then Ok {| shape0 := shape0 A; shape1 := shape1 A;
             item := fun i j => f (item A i j) (item B i j) |}
  else Raise ValueError.

(** An operation on every entry. *)
Definition map (f : float -> float) (A : matrix) : matrix :=
  {| shape0 := shape0 A; shape1 := shape1 A;
     item := fun i j => f (item A i j) |}.

End Mat.

(** ** utils.linalg

    utils/linalg.py is not part of the sources at hand; its [dot],
    [multiply] and [sop] are the "numeric substrate" of the specification. *)

(** Modelled from the spec: the sum of products behind utils.linalg's [dot],
    accumulated from the left, starting from 0. *)
Definition inner (n : nat) (f g : nat -> float) : float :=
  Vec.sum (map (fun k => F.mul (f k) (g k)) (seq 0 n)).

(** Modelled from the spec: utils.linalg's [dot], the matrix product;
    shapes that do not agree raise. *)
Definition dot (A B : matrix) : result matrix :=
  if (shape1 A =? shape0 B)%nat
  then Ok {| shape0 := shape0 A; shape1 := shape1 B;
             item := fun i j =>
               inner (shape1 A) (fun k => item A i k) (fun k => item B k j) |}
  else Raise ValueError.

(** Modelled from the spec: utils.linalg's [dot] of a matrix and a column
    vector. *)
Definition dot_mv (A : matrix) (v : vec) : result vec :=
  if (shape1 A =? length v)%nat
  then Ok (map (fun i => inner (shape1 A) (fun k => item A i k)
                               (fun k => nth k v F.zero))
               (seq 0 (shape0 A)))
  else Raise ValueError.

(** Modelled from the spec: utils.linalg's [dot] of a row vector and a
    matrix. *)
Definition dot_vm (v : vec) (A : matrix) : result vec :=
  if (length v =? shape0 A)%nat
  then Ok (map (fun j => inner (shape0 A) (fun k => nth k v F.zero)
                               (fun k => item A k j))
               (seq 0 (shape1 A)))
  else Raise ValueError.

(** Modelled from the spec: utils.linalg's [multiply], the elementwise
    product. *)
Definition multiply (A B : matrix) : result matrix := Mat.zip_with F.mul A B.

(** Modelled from the spec: utils.linalg's [sop], an operator between every
    entry of a vector and a scalar. *)
Definition sop (v : vec) (s : float) (op : float -> float -> float) : vec :=
  map (fun x => op x s) v.

(** ** Options *)

(** The algorithm-specific keyword options, [self.options]; [None] is a key
    that was not passed. *)
Record options : Type := {
  opt_alpha : option matrix;
  opt_beta : option matrix;
  opt_theta : option float;
  opt_k : option float;
  opt_sigma : option float;
  opt_skip : option Z;
  opt_stride : option Z;
  opt_n_w : option (list bool);
  opt_n_h : option (list bool);
  opt_n_sigma : option bool;
  opt_track : option bool
}.

(** ** The environment: scipy.special, numpy.random, sqrt and the seeding
    strategy *)

Record env : Type := {
  rng : Type;                                   (* state of the random source *)
  erfc : float -> float;                        (* scipy.special.erfc *)
  erfcinv : float -> float;                     (* scipy.special.erfcinv *)
  log : float -> float;                         (* np.log *)
  sqrt : float -> result float;                 (* sqrt of utils.linalg, which
                                                   may reject an argument *)
  random_rand : rng -> float * rng;             (* one draw of np.random.rand *)
  random_gamma : float -> float -> rng -> result (float * rng);
                                                (* np.random.gamma(shape, scale),
                                                   which rejects some arguments *)
  seed_initialize : matrix -> nat -> options -> rng -> matrix * matrix * rng
                                                (* seed.initialize(V, rank, options) *)
}.

(** [np.random.rand] for [n] entries: [n] successive draws. *)
Fixpoint rand (e : env) (n : nat) (g : rng e) : vec * rng e :=
  match n with
  | O => ([], g)
  | S n' =>
      let '(u, g1) := random_rand e g in
      let '(us, g2) := rand e n' g1 in
      (u :: us, g2)
  end.

(** ** Boolean-mask indexing *)

(** [v[a]]: the entries of [v] where the mask holds. *)
Fixpoint mask_get {A : Type} (a : list bool) (v : list A) : list A :=
  match a, v with
  | b :: a', x :: v' => if b then x :: mask_get a' v' else mask_get a' v'
  | _, _ => []
  end.

(** [x[a] = vals]: the entries of [vals] written, in order, where the mask
    holds. *)
Fixpoint mask_set {A : Type} (x : list A) (a : list bool) (vals : list A)
  : list A :=
  match x, a with
  | xi :: x', b :: a' =>
      if b then
        match vals with
        | v :: vals' => v :: mask_set x' a' vals'
        | [] => xi :: mask_set x' a' []
        end
      else xi :: mask_set x' a' vals
  | _, _ => x
  end.

(** ** The rectified-Gaussian sampler, [Bd._randr] *)

Section Sampler.

Variable e : env.

Definition twenty_six : float := F.of_Z 26.

(** The body of [_randr] up to the two masked assignments: the candidate
    values, before the post-processing of NaN, negative and infinite
    entries. *)
Definition _randr_draw (m : vec) (s : float) (l : vec) (g : rng e)
  : result (vec * rng e) :=
  ls_m ← Vec.zip_with (fun li mi => F.sub (F.mul li s) mi) l m;
  r ← sqrt e (F.mul F.two s);
  let A := map (fun t => F.div t r) ls_m in
  let a := map (fun Ai => F.ltb twenty_six Ai) A in
  let x := repeat F.zero (length m) in
  let '(y, g') := rand e (length m) g in
  (* x[a] = - np.log(y[a]) / ((l[a] * s - m[a]) / s) *)
  let num := map (fun u => F.opp (log e u)) (mask_get a y) in
  den0 ← Vec.zip_with (fun li mi => F.sub (F.mul li s) mi)
                    (mask_get a l) (mask_get a m);
  let den := map (fun t => F.div t s) den0 in
  tail ← Vec.zip_with F.div num den;
  let x := mask_set x a tail in
  (* a = np.array(1 - a, dtype = bool) *)
  let a := map negb a in
  (* R = erfc(abs(A[a])) *)
  let Aa := mask_get a A in
  let R := map (fun t => erfc e (F.abs t)) Aa in
  (* x[a] = erfcinv(y[a] * R - (A[a] < 0) * (2 * y[a] + R - 2))
              * sqrt(2 * s) + m[a] - l[a] * s *)
  let ya := mask_get a y in
  yR ← Vec.zip_with F.mul ya R;
  t2 ← Vec.zip_with (fun u r => F.sub (F.add (F.mul F.two u) r) F.two) ya R;
  t3 ← Vec.zip_with (fun Ai t => F.mul (F.of_bool (F.ltb Ai F.zero)) t) Aa t2;
  arg ← Vec.zip_with F.sub yR t3;
  r' ← sqrt e (F.mul F.two s);
  let inv := map (fun t => F.mul (erfcinv e t) r') arg in
  inv_m ← Vec.zip_with F.add inv (mask_get a m);
  let ls := map (fun li => F.mul li s) (mask_get a l) in
  exact ← Vec.zip_with F.sub inv_m ls;
  Ok (mask_set x a exact, g').

(** [x[np.isnan(x)] = 0; x[x < 0] = 0; x[np.isinf(x)] = 0] *)
Definition zero_nan (x : vec) : vec :=
  map (fun t => if F.isnan t then F.zero else t) x.
Definition zero_negative (x : vec) : vec :=
  map (fun t => if F.ltb t F.zero then F.zero else t) x.
Definition zero_inf (x : vec) : vec :=
  map (fun t => if F.isinf t then F.zero else t) x.

Definition _randr (m : vec) (s : float) (l : vec) (g : rng e)
  : result (vec * rng e) :=
  '(x, g') ← _randr_draw m s l g;
  Ok (zero_inf (zero_negative (zero_nan x)), g').

(** [_randr] as the loop over the rows of H calls it: [m] is a row, of shape
    1 x [length m], and [l] is [self.beta[n, :].T], a column, of shape
    [length l] x 1.  [A = (l * s - m) / sqrt(2 * s)] broadcasts the two to
    [length l] x [length m], and so does the mask [a = A > 26.], while [x] and
    [y] take the shape of [m] and [l] keeps its own.  In
    [x[a] = - np.log(y[a]) / ((l[a] * s - m[a]) / s)] the Boolean index [a]
    must have the shape of what it indexes: [y[a]] wants [length l = 1] and
    [l[a]] wants [length m = 1], and numpy raises IndexError otherwise.  With
    one entry each, a row and a column are the same 1 x 1 array and the call
    is the one above. *)
Definition _randr_transposed (m : vec) (s : float) (l : vec) (g : rng e)
  : result (vec * rng e) :=
  _ ← sqrt e (F.mul F.two s);
  if ((length l =? 1) && (length m =? 1))%nat then _randr m s l g
  else Raise IndexError.

End Sampler.

(** ** Attributes of the model *)

(** The attributes the constructor of the base class has set when
    [factorize] is called; [None] is Python's [None]. *)
Record job : Type := {
  job_V : matrix;
  job_rank : nat;
  job_n_run : Z;
  job_max_iter : option Z;
  job_min_residuals : option float;
  job_test_conv : option Z;
  job_callback : bool;
  job_options : options
}.

(** The attributes after [_set_params]. *)
Record params : Type := {
  opts : options;       (* [self.options] *)
  V : matrix;
  rank : nat;
  n_run : Z;
  max_iter : option Z;
  min_residuals : option float;
  test_conv : option Z;
  callback : bool;
  alpha : matrix;
  beta : matrix;
  theta : float;
  k : float;
  sigma_init : float;   (* [self.sigma] as [_set_params] leaves it *)
  skip : Z;
  stride : Z;
  n_w : list bool;
  n_h : list bool;
  n_sigma : bool;
  tracker : bool        (* [self.tracker != None] *)
}.

(** Truth value of an int-or-None attribute. *)
Definition truthy_int (o : option Z) : bool :=
  match o with
  | Some z => negb (z =? 0)
  | None => false
  end.

(** [self.options.get(key, default)] *)
Definition get_default {A : Type} (o : option A) (default : A) : A :=
  match o with
  | Some a => a
  | None => default
  end.

(** [Bd._set_params] *)
Definition _set_params (j : job) : params :=
  let o := job_options j in
  {| opts := o;
     V := job_V j;
     rank := job_rank j;
     n_run := job_n_run j;
     max_iter := if negb (truthy_int (job_max_iter j)) then Some 30
                 else job_max_iter j;
     min_residuals := job_min_residuals j;
     test_conv := job_test_conv j;
     callback := job_callback j;
     alpha := get_default (opt_alpha o) (Mat.zeros (shape0 (job_V j)) (job_rank j));
     beta := get_default (opt_beta o) (Mat.zeros (job_rank j) (shape1 (job_V j)));
     theta := get_default (opt_theta o) F.zero;
     k := get_default (opt_k o) F.zero;
     sigma_init := get_default (opt_sigma o) F.one;
     skip := get_default (opt_skip o) 100;
     stride := get_default (opt_stride o) 1;
     n_w := get_default (opt_n_w o) (repeat false (job_rank j));
     n_h := get_default (opt_n_h o) (repeat false (job_rank j));
     n_sigma := get_default (opt_n_sigma o) false;
     tracker := get_default (opt_track o) false && (1 <? job_n_run j) |}.

(** [Bd._is_satisfied]: [true] lets the loop go on, [false] stops it. *)
Definition _is_satisfied (p : params) (pobj cobj : float) (iter : Z) : bool :=
  if match max_iter p with
     | Some mi => negb (mi =? 0) && (mi <? iter)
     | None => false
     end
  then false
  else if match min_residuals p with
          | Some r => F.truthy r && (0 <? iter) && F.leb (F.sub cobj pobj) r
          | None => false
          end
  then false
  else if (0 <? iter) && F.leb pobj cobj
  then false
  else true.

(** ** The Gibbs sweep, [Bd.update] *)

(** The index list [nn = list(xrange(n - 1)) + list(xrange(n, self.rank))]. *)
Definition nn_of (n rank : nat) : list nat :=
  xrange (Z.of_nat n - 1) ++ xrange2 n (Z.of_nat rank).

(** [mask[n]] of a freeze mask. *)
Definition mask_at (mask : list bool) (n : nat) : result bool :=
  match mask !! n with
  | Some b => Ok b
  | None => Raise IndexError
  end.

(** [a / b] on Python floats. *)
Definition py_div (a b : float) : result float :=
  match b with
  | S754_zero _ => Raise ZeroDivisionError
  | _ => Ok (F.div a b)
  end.

(** [for j in xrange(A.shape[0]): A[j, n] = temp[j]] *)
Definition write_col (A : matrix) (n : nat) (temp : vec) : result matrix :=
  for_each (xrange (Z.of_nat (shape0 A)))
           (fun j A' => x ← Vec.get temp j; Mat.set A' j n x) A.

(** [for j in xrange(A.shape[1]): A[n, j] = temp[j]] *)
Definition write_row (A : matrix) (n : nat) (temp : vec) : result matrix :=
  for_each (xrange (Z.of_nat (shape1 A)))
           (fun j A' => x ← Vec.get temp j; Mat.set A' n j x) A.

Record state (e : env) : Type := {
  W : matrix;
  H : matrix;
  sigma : float;
  gen : rng e;       (* the random source *)
  sweeps : nat       (* ghost: sweeps completed so far in the run *)
}.

Arguments W {e} s.
Arguments H {e} s.
Arguments sigma {e} s.
Arguments gen {e} s.
Arguments sweeps {e} s.

Section Gibbs.

Variable e : env.

(** The first argument of [_randr] for column [n] of W:
    [sop(D[:, n] - dot(self.W[:, nn], C[nn, n]), C[n, n], div)]. *)
Definition basis_mean (p : params) (C D : matrix) (n : nat) (st : state e)
  : result vec :=
  let nn := nn_of n (rank p) in
  Dn ← Mat.col D n;
  Wnn ← Mat.cols (W st) nn;
  Cnn ← Mat.rows_col C nn n;
  prod ← dot_mv Wnn Cnn;
  diff ← Vec.zip_with F.sub Dn prod;
  cnn ← Mat.get C n n;
  Ok (sop diff cnn F.div).

(** One pass of the loop over the columns of W. *)
Definition update_basis_col (p : params) (C D : matrix) (n : nat) (st : state e)
  : result (state e) :=
  frozen ← mask_at (n_w p) n;
  if frozen : bool then Ok st
  else
    m ← basis_mean p C D n st;
    cnn ← Mat.get C n n;
    l ← Mat.col (alpha p) n;
    '(temp, g') ← _randr e m (F.div (sigma st) cnn) l (gen st);
    W' ← write_col (W st) n temp;
    Ok {| W := W'; H := H st; sigma := sigma st; gen := g';
          sweeps := sweeps st |}.

(** The scale of the Gamma draw:
    [1. / (theta + v + multiply(W, dot(W, C) - 2 * D).sum() / 2.)]. *)
Definition sigma_scale (p : params) (v : float) (C D Wm : matrix)
  : result float :=
  WC ← dot Wm C;
  inner ← Mat.zip_with F.sub WC (Mat.map (F.mul F.two) D);
  prod ← multiply Wm inner;
  Ok (F.div F.one
        (F.add (F.add (theta p) v) (F.div (Mat.sum prod) F.two))).

(** The shape of the Gamma draw:
    [(V.shape[0] * V.shape[1]) / 2. + 1. + k]. *)
Definition sigma_shape (p : params) : float :=
  F.add (F.add (F.div (F.of_Z (Z.of_nat (shape0 (V p) * shape1 (V p)))) F.two)
               F.one)
        (k p).

Definition update_sigma (p : params) (v : float) (C D : matrix) (st : state e)
  : result (state e) :=
  if n_sigma p then Ok st
  else
    scale ← sigma_scale p v C D (W st);
    '(x, g') ← random_gamma e (sigma_shape p) scale (gen st);
    s ← py_div F.one x;
    Ok {| W := W st; H := H st; sigma := s; gen := g'; sweeps := sweeps st |}.

(** The first argument of [_randr] for row [n] of H:
    [sop(F[n, :] - dot(E[n, nn], self.H[nn, :]), E[n, n], div)]. *)
Definition mixture_mean (p : params) (E Fm : matrix) (n : nat) (st : state e)
  : result vec :=
  let nn := nn_of n (rank p) in
  Fn ← Mat.row Fm n;
  Enn ← Mat.row_cols E n nn;
  Hnn ← Mat.rows (H st) nn;
  prod ← dot_vm Enn Hnn;
  diff ← Vec.zip_with F.sub Fn prod;
  enn ← Mat.get E n n;
  Ok (sop diff enn F.div).

(** One pass of the loop over the rows of H.  The mean is a row of the
    matrix [F] and the third argument of [_randr] is transposed, a column. *)
Definition update_mixture_row (p : params) (E Fm : matrix) (n : nat)
  (st : state e) : result (state e) :=
  frozen ← mask_at (n_h p) n;
  if frozen : bool then Ok st
  else
    m ← mixture_mean p E Fm n st;
    enn ← Mat.get E n n;
    l ← Mat.row (beta p) n;
    '(temp, g') ← _randr_transposed e m (F.div (sigma st) enn) l (gen st);
    H' ← write_row (H st) n temp;
    Ok {| W := W st; H := H'; sigma := sigma st; gen := g';
          sweeps := sweeps st |}.

Definition update_basis (p : params) (C D : matrix) (st : state e)
  : result (state e) :=
  for_each (xrange (Z.of_nat (rank p))) (update_basis_col p C D) st.

Definition update_mixture (p : params) (E Fm : matrix) (st : state e)
  : result (state e) :=
  for_each (xrange (Z.of_nat (rank p))) (update_mixture_row p E Fm) st.

(** The body of the loop of [update]: one sweep. *)
Definition sweep (p : params) (v : float) (st : state e) : result (state e) :=
  C ← dot (H st) (Mat.T (H st));
  D ← dot (V p) (Mat.T (H st));
  st1 ← update_basis p C D st;
  st2 ← update_sigma p v C D st1;
  E ← dot (Mat.T (W st2)) (W st2);
  Fm ← dot (Mat.T (W st2)) (V p);
  st3 ← update_mixture p E Fm st2;
  Ok {| W := W st3; H := H st3; sigma := sigma st3; gen := gen st3;
        sweeps := S (sweeps st3) |}.

(** A Python bool used as an int. *)
Definition Z_of_bool (b : bool) : Z := if b then 1 else 0.

(** [xrange(self.skip * (iter == 0) + self.stride * (iter > 0))] has this
    many elements. *)
Definition n_sweeps (p : params) (iter : Z) : nat :=
  length (xrange (skip p * Z_of_bool (iter =? 0)
                  + stride p * Z_of_bool (0 <? iter))).

(** [Bd.update] *)
Definition update (p : params) (v : float) (iter : Z) (st : state e)
  : result (state e) :=
  repeat_step (n_sweeps p iter) (sweep p v) st.

(** [Bd.objective] *)
Definition objective (p : params) (st : state e) : result float :=
  WH ← dot (W st) (H st);
  R ← Mat.zip_with F.sub (V p) WH;
  Ok (Mat.sum (Mat.map (fun x => F.mul x x) R)).

End Gibbs.

(** ** The runs, [Bd.factorize] *)

(** The local variables of the [while] loop together with the attributes the
    loop mutates. *)
Record loop_state (e : env) : Type := {
  cur : state e;
  pobj : float;
  cobj : float;
  iter : Z
}.

Arguments cur {e} l.
Arguments pobj {e} l.
Arguments cobj {e} l.
Arguments iter {e} l.

(** What is carried from one run to the next. *)
Record runs (e : env) : Type := {
  last : option (loop_state e);   (* [None] while no run has bound [iter] *)
  carried_sigma : float;          (* [self.sigma] *)
  carried_gen : rng e;
  callbacks : list float;         (* [final_obj] at every call of the callback *)
  tracked : list (matrix * matrix * float)   (* what the tracker was given *)
}.

Arguments last {e} r.
Arguments carried_sigma {e} r.
Arguments carried_gen {e} r.
Arguments callbacks {e} r.
Arguments tracked {e} r.

(** The fitted model [factorize] returns. *)
Record fit (e : env) : Type := {
  fitted : state e;               (* W, H, sigma of the last run *)
  n_iter : Z;
  final_obj : float;
  fit_callbacks : list float;
  fit_tracked : list (matrix * matrix * float)
}.

Arguments fitted {e} f.
Arguments n_iter {e} f.
Arguments final_obj {e} f.
Arguments fit_callbacks {e} f.
Arguments fit_tracked {e} f.

Section Factorize.

Variable e : env.

(** [not self.test_conv or iter % self.test_conv == 0] *)
Definition recompute (p : params) (iter : Z) : bool :=
  negb (truthy_int (test_conv p))
  || match test_conv p with
     | Some tc => iter mod tc =? 0
     | None => false
     end.

(** The [while] loop of a run.  The loop of the source has no bound of its
    own; [fuel] bounds the number of passes of the model. *)
Fixpoint while_loop (fuel : nat) (p : params) (v : float) (ls : loop_state e)
  : result (loop_state e) :=
  if _is_satisfied p (pobj ls) (cobj ls) (iter ls) then
    match fuel with
    | O => Raise OutOfFuel
    | S fuel' =>
        st' ← update e p v (iter ls) (cur ls);
        c ← (if recompute p (iter ls) then objective e p st'
             else Ok (cobj ls));
        while_loop fuel' p v
          {| cur := st'; pobj := cobj ls; cobj := c; iter := iter ls + 1 |}
    end
  else Ok ls.

(** The number of passes the [while] loop makes from [ls], that is, of calls
    of [update]: the loop calls it once in every pass and nowhere else.  A
    pass that raises is counted, and ends the loop. *)
Fixpoint update_calls (fuel : nat) (p : params) (v : float) (ls : loop_state e)
  : nat :=
  if _is_satisfied p (pobj ls) (cobj ls) (iter ls) then
    match fuel with
    | O => 0
    | S fuel' =>
        match update e p v (iter ls) (cur ls) with
        | Ok st' =>
            match (if recompute p (iter ls) then objective e p st'
                   else Ok (cobj ls)) with
            | Ok c =>
                S (update_calls fuel' p v
                     {| cur := st'; pobj := cobj ls; cobj := c;
                        iter := iter ls + 1 |})
            | Raise _ => 1
            end
        | Raise _ => 1
        end
    end
  else 0.

(** Passes that are enough for every loop [factorize] starts. *)
Definition loop_fuel (p : params) : nat :=
  match max_iter p with
  | Some mi => S (Z.to_nat (mi + 1))
  | None => 0
  end.

(** The body of [for _ in xrange(self.n_run)]. *)
Definition one_run (p : params) (v : float) (acc : runs e) : result (runs e) :=
  let '(W0, H0, g1) := seed_initialize e (V p) (rank p) (opts p) (carried_gen acc) in
  let st0 := {| W := W0; H := H0; sigma := carried_sigma acc; gen := g1;
                sweeps := 0 |} in
  o ← objective e p st0;
  ls ← while_loop (loop_fuel p) p v
         {| cur := st0; pobj := o; cobj := o; iter := 0 |};
  Ok {| last := Some ls;
        carried_sigma := sigma (cur ls);
        carried_gen := gen (cur ls);
        callbacks := if callback p then callbacks acc ++ [cobj ls]
                     else callbacks acc;
        tracked := if tracker p
                   then tracked acc ++ [(W (cur ls), H (cur ls), sigma (cur ls))]
                   else tracked acc |}.

(** [self.v = multiply(self.V, self.V).sum() / 2.] *)
Definition job_v (p : params) : result float :=
  VV ← multiply (V p) (V p);
  Ok (F.div (Mat.sum VV) F.two).

(** [Bd.factorize] *)
Definition factorize (j : job) (g : rng e) : result (fit e) :=
  let p := _set_params j in
  v ← job_v p;
  acc ← for_each (xrange (n_run p)) (fun _ => one_run p v)
          {| last := None; carried_sigma := sigma_init p; carried_gen := g;
             callbacks := []; tracked := [] |};
  match last acc with
  | None => Raise UnboundLocalError
  | Some ls =>
      Ok {| fitted := cur ls;
            n_iter := iter ls - 1;
            final_obj := cobj ls;
            fit_callbacks := callbacks acc;
            fit_tracked := tracked acc |}
  end.

End Factorize.

(** ** A concrete environment

    Stand-ins for the external functions, for evaluating the model on
    concrete inputs: the random source is a counter, every uniform draw is
    1/2, every Gamma draw is 1, erfc, erfcinv and log are the identity, sqrt
    is the rounded square root and the seeding strategy returns all-ones
    factors. *)

Definition half : float := F.div F.one F.two.

Definition ones (r c : nat) : matrix :=
  {| shape0 := r; shape1 := c; item := fun _ _ => F.one |}.

Definition test_env : env :=
  {| rng := nat;
     erfc := fun x => x;
     erfcinv := fun x => x;
     log := fun x => x;
     sqrt := fun x => Ok (F.sqrt x);
     random_rand := fun g => (half, S g);
     random_gamma := fun _ _ g => Ok (F.one, S g);
     seed_initialize :=
       fun Vm r _ g => (ones (shape0 Vm) r, ones r (shape1 Vm), g) |}.

(** ** Notions used by the statements *)

(** The standardized tilt [A = (l * s - m) / sqrt(2 * s)] of one entry; [r]
    is the root [sqrt(2 * s)]. *)
Definition tilt (r s m l : float) : float :=
  F.div (F.sub (F.mul l s) m) r.

(** The exponential-tail draw [- ln(u) / ((l * s - m) / s)]. *)
Definition tail_draw (e : env) (s m l u : float) : float :=
  F.div (F.opp (log e u)) (F.div (F.sub (F.mul l s) m) s).

(** The inverse-CDF draw
    [erfcinv(u * R - 1_{A<0} * (2 * u + R - 2)) * sqrt(2 * s) + m - l * s]
    with [R = erfc(|A|)]. *)
Definition exact_draw (e : env) (r s m l u : float) : float :=
  let A := tilt r s m l in
  let R := erfc e (F.abs A) in
  F.sub
    (F.add
       (F.mul
          (erfcinv e
             (F.sub (F.mul u R)
                    (F.mul (F.of_bool (F.ltb A F.zero))
                           (F.sub (F.add (F.mul F.two u) R) F.two))))
          r)
       m)
    (F.mul l s).

(** The mean, the tilt and the uniform draw of every entry, side by side. *)
Definition zip3 (m l y : vec) : list (float * (float * float)) :=
  combine m (combine l y).

(** The candidate value of one entry, from its mean [m], tilt [l] and uniform
    draw [u]. *)
Definition candidate (e : env) (r s : float) (t : float * (float * float))
  : float :=
  let '(m, (l, u)) := t in
  if F.ltb twenty_six (tilt r s m l) then tail_draw e s m l u
  else exact_draw e r s m l u.

(** An entry that is neither NaN, nor negative, nor infinite. *)
Definition clean (x : float) : bool :=
  negb (F.isnan x) && negb (F.ltb x F.zero) && negb (F.isinf x).

Definition clean_matrix (A : matrix) : Prop :=
  forall i j, (i < shape0 A)%nat -> (j < shape1 A)%nat ->
              clean (item A i j) = true.

(** An entry with NaN, negative and infinite values replaced by 0. *)
Definition zero_unsafe (x : float) : float :=
  if F.isnan x || F.ltb x F.zero || F.isinf x then F.zero else x.

(** The index list of the specification: every index below the rank except
    [n]. *)
Definition leave_one_out (n rank : nat) : list nat :=
  List.filter (fun i => negb (i =? n)%nat) (seq 0 rank).

(** The conditional mean as the specification words it: the residual of
    column [n] against all columns of W except [n], divided by [C[n, n]]. *)
Definition loo_basis_mean {e : env} (p : params) (C D : matrix) (n : nat)
  (st : state e) : result vec :=
  let nn := leave_one_out n (rank p) in
  Dn ← Mat.col D n;
  Wnn ← Mat.cols (W st) nn;
  Cnn ← Mat.rows_col C nn n;
  prod ← dot_mv Wnn Cnn;
  diff ← Vec.zip_with F.sub Dn prod;
  cnn ← Mat.get C n n;
  Ok (sop diff cnn F.div).

(** The same for row [n] of H, with E, F and the rows of H except [n]. *)
Definition loo_mixture_mean {e : env} (p : params) (E Fm : matrix) (n : nat)
  (st : state e) : result vec :=
  let nn := leave_one_out n (rank p) in
  Fn ← Mat.row Fm n;
  Enn ← Mat.row_cols E n nn;
  Hnn ← Mat.rows (H st) nn;
  prod ← dot_vm Enn Hnn;
  diff ← Vec.zip_with F.sub Fn prod;
  enn ← Mat.get E n n;
  Ok (sop diff enn F.div).

(** The three stopping conditions of the specification; an attribute is
    configured when it holds a value that Python takes for true. *)
Definition stop_condition (p : params) (pobj cobj : float) (iter : Z) : Prop :=
  (exists mi, max_iter p = Some mi /\ mi <> 0 /\ mi < iter)
  \/ (exists r, min_residuals p = Some r /\ F.truthy r = true /\ 0 < iter
                /\ F.leb (F.sub cobj pobj) r = true)
  \/ (0 < iter /\ F.leb pobj cobj = true).

(** The shapes the documentation asks of the supplied priors and masks. *)
Definition shape_is (r c : nat) (o : option matrix) : bool :=
  match o with
  | Some A => (shape0 A =? r)%nat && (shape1 A =? c)%nat
  | None => true
  end.

Definition length_is (r : nat) (o : option (list bool)) : bool :=
  match o with
  | Some mask => (length mask =? r)%nat
  | None => true
  end.

Definition well_shaped (j : job) : bool :=
  let o := job_options j in
  shape_is (shape0 (job_V j)) (job_rank j) (opt_alpha o)
  && shape_is (job_rank j) (shape1 (job_V j)) (opt_beta o)
  && length_is (job_rank j) (opt_n_w o)
  && length_is (job_rank j) (opt_n_h o).

(** The same attributes with other freeze masks. *)
Definition with_masks (p : params) (w h : list bool) : params :=
  {| opts := opts p; V := V p; rank := rank p; n_run := n_run p;
     max_iter := max_iter p;
     min_residuals := min_residuals p; test_conv := test_conv p;
     callback := callback p; alpha := alpha p; beta := beta p;
     theta := theta p; k := k p; sigma_init := sigma_init p;
     skip := skip p; stride := stride p; n_w := w; n_h := h;
     n_sigma := n_sigma p; tracker := tracker p |}.

(** The seeding strategy keeps its contract: clean, nonnegative factors. *)
Definition seeds_clean (e : env) : Prop :=
  forall (Vm : matrix) (r : nat) (o : options) (g : rng e),
    clean_matrix (fst (fst (seed_initialize e Vm r o g)))
    /\ clean_matrix (snd (fst (seed_initialize e Vm r o g))).

(** Sweeps a run has made when its loop counter stands at [iters]: the
    burn-in call and [iters - 1] later calls. *)
Definition sweeps_after (p : params) (iters : Z) : nat :=
  if iters <=? 0 then 0%nat
  else (Z.to_nat (skip p) + Z.to_nat (iters - 1) * Z.to_nat (stride p))%nat.

(** ** Concrete inputs *)

(** A matrix of small integers, given by its rows. *)
Definition matrix_of (r c : nat) (rows : list (list Z)) : matrix :=
  {| shape0 := r; shape1 := c;
     item := fun i j => F.of_Z (nth j (nth i rows []) 0) |}.

Definition no_options : options :=
  {| opt_alpha := None; opt_beta := None; opt_theta := None; opt_k := None;
     opt_sigma := None; opt_skip := None; opt_stride := None;
     opt_n_w := None; opt_n_h := None; opt_n_sigma := None;
     opt_track := None |}.

Definition V21 : matrix := matrix_of 2 1 [[1]; [3]].

(** Rank 2 on a 2 x 1 target, one run, defaults but for a burn-in of 2. *)
Definition job_plain : job :=
  {| job_V := V21; job_rank := 2; job_n_run := 1; job_max_iter := Some 3;
     job_min_residuals := None; job_test_conv := None; job_callback := false;
     job_options :=
       {| opt_alpha := None; opt_beta := None; opt_theta := None;
          opt_k := None; opt_sigma := None; opt_skip := Some 2;
          opt_stride := None; opt_n_w := None; opt_n_h := None;
          opt_n_sigma := None; opt_track := None |} |}.

(** Everything frozen, a burn-in of 3 sweeps. *)
Definition job_frozen : job :=
  {| job_V := V21; job_rank := 2; job_n_run := 1; job_max_iter := None;
     job_min_residuals := None; job_test_conv := None; job_callback := false;
     job_options :=
       {| opt_alpha := None; opt_beta := None; opt_theta := None;
          opt_k := None; opt_sigma := None; opt_skip := Some 3;
          opt_stride := None; opt_n_w := Some [true; true];
          opt_n_h := Some [true; true]; opt_n_sigma := Some true;
          opt_track := None |} |}.

(** A prior with a column too many and a mask with an entry too many; the
    rows of H are frozen. *)
Definition job_misshaped : job :=
  {| job_V := V21; job_rank := 2; job_n_run := 1; job_max_iter := Some 3;
     job_min_residuals := None; job_test_conv := None; job_callback := false;
     job_options :=
       {| opt_alpha := Some (Mat.zeros 2 3); opt_beta := None;
          opt_theta := None; opt_k := None; opt_sigma := None;
          opt_skip := Some 2; opt_stride := None;
          opt_n_w := Some [false; false; true];
          opt_n_h := Some [true; true]; opt_n_sigma := None;
          opt_track := None |} |}.

(** Column 1 of W, row 0 of H and sigma frozen. *)
Definition job_partly_frozen : job :=
  {| job_V := V21; job_rank := 2; job_n_run := 1; job_max_iter := Some 3;
     job_min_residuals := None; job_test_conv := None; job_callback := false;
     job_options :=
       {| opt_alpha := None; opt_beta := None; opt_theta := None;
          opt_k := None; opt_sigma := None; opt_skip := Some 2;
          opt_stride := None; opt_n_w := Some [false; true];
          opt_n_h := Some [true; false]; opt_n_sigma := Some true;
          opt_track := None |} |}.

(** A state for the 1 x 1 target [[3]] at rank 2: W = [[1, 2]], H = [[1], [1]]. *)
Definition job_small : job :=
  {| job_V := matrix_of 1 1 [[3]]; job_rank := 2; job_n_run := 1;
     job_max_iter := None; job_min_residuals := None; job_test_conv := None;
     job_callback := false; job_options := no_options |}.

Definition state_small : state test_env :=
  Build_state test_env (matrix_of 1 2 [[1; 2]]) (matrix_of 2 1 [[1]; [1]])
              F.one 0%nat 0%nat.

Definition state_ones : state test_env :=
  Build_state test_env (ones 2 2) (ones 2 1) F.one 0%nat 0%nat.

(** ** Further notions *)

(** Factors, priors and masks that fit the target and the rank. *)
Definition shaped {e : env} (p : params) (st : state e) : Prop :=
  shape0 (W st) = shape0 (V p) /\ shape1 (W st) = rank p
  /\ shape0 (H st) = rank p /\ shape1 (H st) = shape1 (V p)
  /\ shape0 (alpha p) = shape0 (V p) /\ (rank p <= shape1 (alpha p))%nat
  /\ (rank p <= shape0 (beta p))%nat /\ shape1 (beta p) = shape1 (V p)
  /\ (rank p <= length (n_w p))%nat /\ (rank p <= length (n_h p))%nat.

(** The pass over the rows of H can go through: the target has one column,
    or no row of H is free. *)
Definition rows_drawable (p : params) : Prop :=
  shape1 (V p) = 1%nat
  \/ (forall n, (n < rank p)%nat -> n_h p !! n = Some true).

(** An environment whose square root and Gamma source reject nothing, the
    Gamma draws being other than 0. *)
Definition benign (e : env) : Prop :=
  (forall x, exists r, sqrt e x = Ok r)
  /\ (forall a b g, exists x g',
         random_gamma e a b g = Ok (x, g') /\ F.truthy x = true).

(** The seeding strategy keeps its contract on the shapes of the factors. *)
Definition seeds_shaped (e : env) : Prop :=
  forall (Vm : matrix) (r : nat) (o : options) (g : rng e),
    shape0 (fst (fst (seed_initialize e Vm r o g))) = shape0 Vm
    /\ shape1 (fst (fst (seed_initialize e Vm r o g))) = r
    /\ shape0 (snd (fst (seed_initialize e Vm r o g))) = r
    /\ shape1 (snd (fst (seed_initialize e Vm r o g))) = shape1 Vm.

(** A float whose sign bit is clear, or NaN. *)
Definition sign_clear (x : float) : bool :=
  match x with
  | S754_zero sg | S754_infinity sg | S754_finite sg _ _ => negb sg
  | S754_nan => true
  end.

(** Options with some entries replaced, for the inputs below. *)
Definition options_with (skip : option Z) (track : option bool)
  (frozen_sigma : option bool) : options :=
  {| opt_alpha := None; opt_beta := None; opt_theta := None; opt_k := None;
     opt_sigma := None; opt_skip := skip; opt_stride := None;
     opt_n_w := None; opt_n_h := None; opt_n_sigma := frozen_sigma;
     opt_track := track |}.

(** Three tracked runs with a callback, sigma frozen. *)
Definition job_three_runs : job :=
  {| job_V := V21; job_rank := 2; job_n_run := 3; job_max_iter := Some 2;
     job_min_residuals := None; job_test_conv := None; job_callback := true;
     job_options := options_with (Some 1) (Some true) (Some true) |}.

(** No run at all. *)
Definition job_no_run : job :=
  {| job_V := V21; job_rank := 2; job_n_run := 0; job_max_iter := None;
     job_min_residuals := None; job_test_conv := None; job_callback := false;
     job_options := no_options |}.

(** A negative number of iterations. *)
Definition job_negative : job :=
  {| job_V := V21; job_rank := 2; job_n_run := 1; job_max_iter := Some (-1);
     job_min_residuals := None; job_test_conv := None; job_callback := false;
     job_options := no_options |}.

(** No burn-in. *)
Definition job_no_burn_in : job :=
  {| job_V := V21; job_rank := 2; job_n_run := 1; job_max_iter := Some 5;
     job_min_residuals := None; job_test_conv := None; job_callback := false;
     job_options := options_with (Some 0) None None |}.

(** The objective recomputed every second pass only. *)
Definition job_sparse_checks : job :=
  {| job_V := V21; job_rank := 2; job_n_run := 1; job_max_iter := Some 9;
     job_min_residuals := None; job_test_conv := Some 2;
     job_callback := false;
     job_options := options_with (Some 1) None None |}.

(** A target with one row and two columns, factorized at rank 1 with the
    defaults for the priors and the masks. *)
Definition job_wide : job :=
  {| job_V := matrix_of 1 2 [[1; 3]]; job_rank := 1; job_n_run := 1;
     job_max_iter := Some 2; job_min_residuals := None;
     job_test_conv := None; job_callback := false;
     job_options := options_with (Some 1) None None |}.

(** ** The preprocessing of the faces example
    (nimfa/examples/cbcl_images.py) *)

(** numpy's [minimum] and [maximum] of two floats: the first argument when
    it is NaN or compares as asked, the second otherwise. *)
Definition np_minimum (x y : float) : float :=
  if F.leb x y || F.isnan x then x else y.

Definition np_maximum (x y : float) : float :=
  if F.leb y x || F.isnan x then x else y.

Definition quarter : float := F.div F.one (F.of_Z 4).

(** [preprocess]: the matrix is centred, scaled by the root of its mean
    square, shifted and scaled by 0.25 and clipped to the interval from 0 to
    1.  [mean] stands for numpy's [mean] of a matrix, whose order of
    summation is numpy's own; [np.sqrt] is the rounded square root. *)
Definition preprocess (mean : matrix -> float) (V : matrix) : matrix :=
  let V := Mat.map (fun x => F.sub x (mean V)) V in
  let V := Mat.map (fun x =>
             F.div x (F.sqrt (mean (Mat.map (fun y => F.mul y y) V)))) V in
  let V := Mat.map (fun x => F.add x quarter) V in
  let V := Mat.map (fun x => F.mul x quarter) V in
  let V := Mat.map (fun x => np_minimum x F.one) V in
  let V := Mat.map (fun x => np_maximum x F.zero) V in
  V.

(** * Properties *)

(** ** The error monad *)

Lemma bind_Ok {A B : Type} (c : result A) (f : A -> result B) (b : B) :
  c ≫= f = Ok b -> exists a, c = Ok a /\ f a = Ok b.
Proof.
  destruct c as [a|err]; simpl; intros Hb.
  - exists a. split; [reflexivity | exact Hb].
  - discriminate.
Qed.

Lemma is_Ok_inv {A : Type} (r : result A) :
  is_Ok r = true -> exists a, r = Ok a.
Proof.
  destruct r as [a|err]; [exists a; reflexivity | discriminate].
Qed.

Lemma is_Ok_Raise {A : Type} (r : result A) (err : exn) :
  r = Raise err -> is_Ok r = true -> False.
Proof. intros ->. discriminate. Qed.

Tactic Notation "bind_inv" hyp(H) :=
  let a := fresh "a" in
  let Ha := fresh "Ha" in
  apply bind_Ok in H; destruct H as (a & Ha & H).

Tactic Notation "bind_inv" hyp(H) "as" simple_intropattern(a) ident(Ha) :=
  apply bind_Ok in H; destruct H as (a & Ha & H).

(** ** Vectors and masks *)

Lemma zip_with_map {A : Type} (f : float -> float -> float)
  (g1 g2 : A -> float) (t : list A) :
  Vec.zip_with f (map g1 t) (map g2 t) = Ok (map (fun x => f (g1 x) (g2 x)) t).
Proof.
  induction t as [|x t IH]; simpl; [reflexivity|].
  rewrite IH. reflexivity.
Qed.

Lemma zip_with_length (f : float -> float -> float) (u v r : vec) :
  Vec.zip_with f u v = Ok r -> length u = length v /\ length r = length u.
Proof.
  revert v r. induction u as [|x u IH]; intros [|y v] r; simpl; try discriminate.
  - intros [= <-]. auto.
  - intros Hr. bind_inv Hr. injection Hr as <-.
    apply IH in Ha. simpl. lia.
Qed.

Lemma mask_get_map {A B : Type} (g : A -> B) (a : list bool) (t : list A) :
  mask_get a (map g t) = map g (mask_get a t).
Proof.
  revert t. induction a as [|b a IH]; intros [|x t]; simpl; try reflexivity.
  destruct b; simpl; rewrite IH; reflexivity.
Qed.

(** Writing [f] of the selected entries back through the same mask is an
    entrywise choice. *)
Lemma mask_set_map {A B : Type} (p : A -> bool) (f h : A -> B) (t : list A) :
  mask_set (map h t) (map p t) (map f (mask_get (map p t) t))
  = map (fun x => if p x then f x else h x) t.
Proof.
  induction t as [|x t IH]; simpl; [reflexivity|].
  destruct (p x); simpl; rewrite IH; reflexivity.
Qed.

Lemma rand_length (e : env) (n : nat) (g : rng e) :
  length (fst (rand e n g)) = n.
Proof.
  revert g. induction n as [|n IH]; intros g; simpl; [reflexivity|].
  destruct (random_rand e g) as [u g1]. specialize (IH g1).
  destruct (rand e n g1) as [us g2]. simpl in *. congruence.
Qed.

Lemma zip3_m (m l y : vec) :
  length l = length m -> length y = length m ->
  map fst (zip3 m l y) = m.
Proof.
  unfold zip3. revert l y.
  induction m as [|x m IH]; intros [|x1 l] [|x2 y]; simpl; try discriminate;
    intros Hl Hy; [reflexivity|].
  f_equal. apply IH; lia.
Qed.

Lemma zip3_l (m l y : vec) :
  length l = length m -> length y = length m ->
  map (fun t => fst (snd t)) (zip3 m l y) = l.
Proof.
  unfold zip3. revert l y.
  induction m as [|x m IH]; intros [|x1 l] [|x2 y]; simpl; try discriminate;
    intros Hl Hy; [reflexivity|].
  f_equal. apply IH; lia.
Qed.

Lemma zip3_y (m l y : vec) :
  length l = length m -> length y = length m ->
  map (fun t => snd (snd t)) (zip3 m l y) = y.
Proof.
  unfold zip3. revert l y.
  induction m as [|x m IH]; intros [|x1 l] [|x2 y]; simpl; try discriminate;
    intros Hl Hy; [reflexivity|].
  f_equal. apply IH; lia.
Qed.

Lemma zip3_length (m l y : vec) :
  length l = length m -> length y = length m ->
  length (zip3 m l y) = length m.
Proof.
  intros Hl Hy. unfold zip3. rewrite !length_combine. lia.
Qed.

Lemma zip3_lookup (m l y : vec) (i : nat) (mi li u : float) :
  m !! i = Some mi -> l !! i = Some li -> y !! i = Some u ->
  zip3 m l y !! i = Some (mi, (li, u)).
Proof.
  unfold zip3. revert l y i.
  induction m as [|x m IH]; intros [|x1 l] [|x2 y] [|i]; simpl;
    try discriminate.
  - intros [= ->] [= ->] [= ->]. reflexivity.
  - apply IH.
Qed.

Lemma repeat_map {A B : Type} (b : B) (t : list A) :
  repeat b (length t) = map (fun _ => b) t.
Proof.
  induction t as [|x t IH]; simpl; [reflexivity|]. rewrite IH. reflexivity.
Qed.

(** ** The sampler *)

Section SamplerFacts.

Variable e : env.

Lemma Ok_bind {A B : Type} (a : A) (f : A -> result B) : Ok a ≫= f = f a.
Proof. reflexivity. Qed.

(** The vectorized body of [_randr], with its two masked assignments, is an
    entrywise choice between the two draws. *)
Lemma _randr_draw_on (t : list (float * (float * float))) (r s : float)
  (g g' : rng e) :
  sqrt e (F.mul F.two s) = Ok r ->
  rand e (length t) g = (map (fun x => snd (snd x)) t, g') ->
  _randr_draw e (map fst t) s (map (fun x => fst (snd x)) t) g
  = Ok (map (candidate e r s) t, g').
Proof.
  intros Hsqrt Hrand. unfold _randr_draw.
  rewrite length_map, Hrand, repeat_map, Hsqrt.
  repeat first
    [ rewrite zip_with_map | rewrite Ok_bind; cbv beta
    | rewrite mask_get_map | rewrite map_map ].
  rewrite !mask_set_map.
  f_equal. f_equal. apply map_ext. intros [mi [li u]].
  unfold candidate, tilt, tail_draw, exact_draw, tilt. cbn [fst snd].
  destruct (F.ltb twenty_six _); reflexivity.
Qed.

Lemma _randr_draw_entrywise (m : vec) (r s : float) (l : vec) (g : rng e) :
  length l = length m ->
  sqrt e (F.mul F.two s) = Ok r ->
  _randr_draw e m s l g
  = Ok (map (candidate e r s) (zip3 m l (fst (rand e (length m) g))),
        snd (rand e (length m) g)).
Proof.
  intros Hl Hsqrt.
  pose proof (rand_length e (length m) g) as Hy.
  destruct (rand e (length m) g) as [y g'] eqn:Hrand. cbn [fst snd] in *.
  rewrite <- (zip3_m m l y Hl Hy) at 1.
  rewrite <- (zip3_l m l y Hl Hy) at 2.
  apply _randr_draw_on; [exact Hsqrt|].
  rewrite zip3_length, zip3_y by assumption. exact Hrand.
Qed.

(** A mean and a tilt of different lengths are rejected, and so is a
    variance whose root is. *)
Lemma _randr_draw_shapes (m : vec) (s : float) (l : vec) (g : rng e)
  (x : vec * rng e) :
  _randr_draw e m s l g = Ok x ->
  length l = length m /\ exists r, sqrt e (F.mul F.two s) = Ok r.
Proof.
  unfold _randr_draw. intros Hx. bind_inv Hx as ls_m Hls. bind_inv Hx as r Hr.
  apply zip_with_length in Hls. split; [tauto | exists r; exact Hr].
Qed.

Lemma zero_unsafe_clean (x : float) : clean (zero_unsafe x) = true.
Proof.
  unfold zero_unsafe, clean.
  destruct (F.isnan x) eqn:Hnan; [reflexivity|].
  destruct (F.ltb x F.zero) eqn:Hneg; [reflexivity|].
  destruct (F.isinf x) eqn:Hinf; [reflexivity|].
  cbn [orb]. rewrite Hnan, Hneg, Hinf. reflexivity.
Qed.

(** The three assignments of the post-processing, one after the other,
    amount to [zero_unsafe] on every entry. *)
Lemma post_processing (x : vec) :
  zero_inf (zero_negative (zero_nan x)) = map zero_unsafe x.
Proof.
  unfold zero_inf, zero_negative, zero_nan. rewrite !map_map.
  apply map_ext. intros t. unfold zero_unsafe.
  destruct t as [sg|sg| |sg mt et]; try destruct sg; reflexivity.
Qed.

Lemma _randr_post (m : vec) (s : float) (l : vec) (g g' : rng e) (x : vec) :
  _randr e m s l g = Ok (x, g') ->
  exists c, _randr_draw e m s l g = Ok (c, g') /\ x = map zero_unsafe c.
Proof.
  unfold _randr. intros Hx. bind_inv Hx. destruct a as [c g1].
  injection Hx as <- <-. exists c. split; [exact Ha | apply post_processing].
Qed.

Lemma _randr_clean (m : vec) (s : float) (l : vec) (g g' : rng e) (x : vec) :
  _randr e m s l g = Ok (x, g') ->
  length x = length m /\ Forall (fun t => clean t = true) x.
Proof.
  intros Hx. apply _randr_post in Hx as (c & Hc & ->).
  pose proof (_randr_draw_shapes _ _ _ _ _ Hc) as (Hl & r & Hr).
  rewrite (_randr_draw_entrywise m r s l g Hl Hr) in Hc. injection Hc as <- _.
  split.
  - rewrite !length_map, zip3_length; auto using rand_length.
  - apply List.Forall_forall. intros t Ht. apply in_map_iff in Ht as (y & <- & _).
    apply zero_unsafe_clean.
Qed.

(** The call with a transposed third argument returns on 1 x 1 arguments
    only, and then as the plain call does. *)
Lemma _randr_transposed_inv (m : vec) (s : float) (l : vec) (g : rng e)
  (r : vec * rng e) :
  _randr_transposed e m s l g = Ok r ->
  _randr e m s l g = Ok r /\ length l = 1%nat /\ length m = 1%nat.
Proof.
  unfold _randr_transposed. intros Hrun. bind_inv Hrun as q Hq.
  destruct (length l =? 1)%nat eqn:Hl; [|discriminate].
  destruct (length m =? 1)%nat eqn:Hm; [|discriminate].
  cbn [andb] in Hrun. apply Nat.eqb_eq in Hl, Hm. auto.
Qed.

End SamplerFacts.

(** ** Loops *)

Lemma for_each_inv {A S : Type} (P : S -> Prop) (body : A -> S -> result S)
  (xs : list A) (s s' : S) :
  (forall x t t', In x xs -> P t -> body x t = Ok t' -> P t') ->
  P s -> for_each xs body s = Ok s' -> P s'.
Proof.
  revert s. induction xs as [|x xs IH]; intros s Hstep Hs Hrun; simpl in Hrun.
  - injection Hrun as <-. exact Hs.
  - bind_inv Hrun. apply (IH a).
    + intros y t t' Hy. apply Hstep. right. exact Hy.
    + apply (Hstep x s a); [left; reflexivity | exact Hs | exact Ha].
    + exact Hrun.
Qed.

Lemma repeat_step_inv {S : Type} (P : S -> Prop) (step : S -> result S)
  (n : nat) (s s' : S) :
  (forall t t', P t -> step t = Ok t' -> P t') ->
  P s -> repeat_step n step s = Ok s' -> P s'.
Proof.
  intros Hstep. revert s. induction n as [|n IH]; intros s Hs Hrun;
    simpl in Hrun.
  - injection Hrun as <-. exact Hs.
  - bind_inv Hrun. apply (IH a); [apply (Hstep s a Hs Ha) | exact Hrun].
Qed.

(** Two loop bodies that agree on the elements of the list run alike. *)
Lemma for_each_ext {A S : Type} (body1 body2 : A -> S -> result S)
  (xs : list A) (s : S) :
  (forall x t, In x xs -> body1 x t = body2 x t) ->
  for_each xs body1 s = for_each xs body2 s.
Proof.
  revert s. induction xs as [|x xs IH]; intros s Hext; simpl; [reflexivity|].
  rewrite (Hext x s) by (left; reflexivity).
  destruct (body2 x s) as [t|err]; simpl; [|reflexivity].
  apply IH. intros y t' Hy. apply Hext. right. exact Hy.
Qed.

Lemma in_xrange (stop : Z) (n : nat) :
  In n (xrange stop) <-> (Z.of_nat n < stop)%Z.
Proof. unfold xrange. rewrite in_seq. lia. Qed.

(** ** Writes into a matrix *)

Lemma set_frame (A A' : matrix) (i j : nat) (x : float) :
  Mat.set A i j x = Ok A' ->
  shape0 A' = shape0 A /\ shape1 A' = shape1 A /\
  item A' i j = x /\
  (forall i' j', i' <> i \/ j' <> j -> item A' i' j' = item A i' j').
Proof.
  unfold Mat.set. destruct (Mat.in_shape A i j); [|discriminate].
  intros [= <-]. cbn [shape0 shape1 item]. repeat split.
  - rewrite !Nat.eqb_refl. reflexivity.
  - intros i' j' Hne.
    destruct (Nat.eqb_spec i' i), (Nat.eqb_spec j' j); cbn [andb];
      try reflexivity.
    lia.
Qed.

Lemma get_some (v : vec) (j : nat) (x : float) :
  Vec.get v j = Ok x -> v !! j = Some x.
Proof. unfold Vec.get. destruct (v !! j); [intros [= ->]; reflexivity | discriminate]. Qed.

Lemma lookup_In (v : vec) (j : nat) (x : float) : v !! j = Some x -> In x v.
Proof.
  revert j. induction v as [|y v IH]; intros [|j]; simpl; try discriminate.
  - intros [= ->]. left. reflexivity.
  - intros Hj. right. apply (IH j Hj).
Qed.

(** A column write keeps the shape and every other column. *)
Lemma write_col_frame (A A' : matrix) (n : nat) (temp : vec) :
  write_col A n temp = Ok A' ->
  shape0 A' = shape0 A /\ shape1 A' = shape1 A /\
  (forall r c, c <> n -> item A' r c = item A r c).
Proof.
  unfold write_col.
  apply (for_each_inv
           (fun B => shape0 B = shape0 A /\ shape1 B = shape1 A /\
                     forall r c, c <> n -> item B r c = item A r c)).
  - intros j B B' _ (H0 & H1 & HB) Hstep. bind_inv Hstep.
    apply set_frame in Hstep as (H0' & H1' & _ & Hother).
    repeat split; [congruence | congruence |].
    intros r c Hc. rewrite Hother by (right; exact Hc). apply HB, Hc.
  - auto.
Qed.

(** A row write keeps the shape and every other row. *)
Lemma write_row_frame (A A' : matrix) (n : nat) (temp : vec) :
  write_row A n temp = Ok A' ->
  shape0 A' = shape0 A /\ shape1 A' = shape1 A /\
  (forall r c, r <> n -> item A' r c = item A r c).
Proof.
  unfold write_row.
  apply (for_each_inv
           (fun B => shape0 B = shape0 A /\ shape1 B = shape1 A /\
                     forall r c, r <> n -> item B r c = item A r c)).
  - intros j B B' _ (H0 & H1 & HB) Hstep. bind_inv Hstep.
    apply set_frame in Hstep as (H0' & H1' & _ & Hother).
    repeat split; [congruence | congruence |].
    intros r c Hr. rewrite Hother by (left; exact Hr). apply HB, Hr.
  - auto.
Qed.

Lemma set_clean (A A' : matrix) (i j : nat) (x : float) :
  clean_matrix A -> clean x = true -> Mat.set A i j x = Ok A' ->
  clean_matrix A'.
Proof.
  intros HA Hx Hset. apply set_frame in Hset as (H0 & H1 & Hij & Hother).
  intros r c Hr Hc.
  destruct (Nat.eq_dec r i) as [->|Hri], (Nat.eq_dec c j) as [->|Hcj].
  - rewrite Hij. exact Hx.
  - rewrite Hother by (right; exact Hcj). apply HA; congruence.
  - rewrite Hother by (left; exact Hri). apply HA; congruence.
  - rewrite Hother by (left; exact Hri). apply HA; congruence.
Qed.

Lemma write_col_clean (A A' : matrix) (n : nat) (temp : vec) :
  clean_matrix A -> Forall (fun t => clean t = true) temp ->
  write_col A n temp = Ok A' -> clean_matrix A'.
Proof.
  intros HA Htemp. unfold write_col.
  apply (for_each_inv clean_matrix); [|exact HA].
  intros j B B' _ HB Hstep. bind_inv Hstep.
  apply (set_clean B B' j n a HB); [|exact Hstep].
  apply get_some, lookup_In in Ha.
  rewrite List.Forall_forall in Htemp. apply Htemp, Ha.
Qed.

Lemma write_row_clean (A A' : matrix) (n : nat) (temp : vec) :
  clean_matrix A -> Forall (fun t => clean t = true) temp ->
  write_row A n temp = Ok A' -> clean_matrix A'.
Proof.
  intros HA Htemp. unfold write_row.
  apply (for_each_inv clean_matrix); [|exact HA].
  intros j B B' _ HB Hstep. bind_inv Hstep.
  apply (set_clean B B' n j a HB); [|exact Hstep].
  apply get_some, lookup_In in Ha.
  rewrite List.Forall_forall in Htemp. apply Htemp, Ha.
Qed.

(** ** The passes of a sweep *)

Section SweepFacts.

Variable e : env.

Lemma mask_at_some (mask : list bool) (n : nat) (b : bool) :
  mask_at mask n = Ok b -> mask !! n = Some b.
Proof.
  unfold mask_at. destruct (mask !! n); [intros [= ->]; reflexivity | discriminate].
Qed.

(** One column step: H, sigma and the sweep count stay, W keeps its shape
    and every column but [n], a frozen column stays, and clean entries stay
    clean. *)
Lemma update_basis_col_frame (p : params) (C D : matrix) (n : nat)
  (st st' : state e) :
  update_basis_col e p C D n st = Ok st' ->
  H st' = H st /\ sigma st' = sigma st /\ sweeps st' = sweeps st /\
  shape0 (W st') = shape0 (W st) /\ shape1 (W st') = shape1 (W st) /\
  (forall r c, c <> n -> item (W st') r c = item (W st) r c) /\
  (n_w p !! n = Some true -> st' = st) /\
  (clean_matrix (W st) -> clean_matrix (W st')).
Proof.
  unfold update_basis_col. intros Hrun. bind_inv Hrun.
  apply mask_at_some in Ha. destruct a.
  - injection Hrun as <-. repeat split; auto.
  - bind_inv Hrun as m Hm. bind_inv Hrun as cnn Hcnn. bind_inv Hrun as l Hl.
    bind_inv Hrun as [temp g'] Htemp. bind_inv Hrun as W' HW'.
    injection Hrun as <-. cbn [W H sigma sweeps].
    pose proof (write_col_frame _ _ _ _ HW') as (H0 & H1 & Hother).
    repeat split; auto.
    + intros Hfrozen. congruence.
    + intros Hclean. apply (write_col_clean (W st) W' n temp Hclean);
        [|exact HW'].
      apply _randr_clean in Htemp. tauto.
Qed.

(** One row step, symmetrically. *)
Lemma update_mixture_row_frame (p : params) (E Fm : matrix) (n : nat)
  (st st' : state e) :
  update_mixture_row e p E Fm n st = Ok st' ->
  W st' = W st /\ sigma st' = sigma st /\ sweeps st' = sweeps st /\
  shape0 (H st') = shape0 (H st) /\ shape1 (H st') = shape1 (H st) /\
  (forall r c, r <> n -> item (H st') r c = item (H st) r c) /\
  (n_h p !! n = Some true -> st' = st) /\
  (clean_matrix (H st) -> clean_matrix (H st')).
Proof.
  unfold update_mixture_row. intros Hrun. bind_inv Hrun.
  apply mask_at_some in Ha. destruct a.
  - injection Hrun as <-. repeat split; auto.
  - bind_inv Hrun as m Hm. bind_inv Hrun as enn Henn. bind_inv Hrun as l Hl.
    bind_inv Hrun as [temp g'] Htemp. bind_inv Hrun as H' HH'.
    injection Hrun as <-. cbn [W H sigma sweeps].
    pose proof (write_row_frame _ _ _ _ HH') as (H0 & H1 & Hother).
    repeat split; auto.
    + intros Hfrozen. congruence.
    + intros Hclean. apply (write_row_clean (H st) H' n temp Hclean);
        [|exact HH'].
      apply _randr_transposed_inv in Htemp as (Htemp & _).
      apply _randr_clean in Htemp. tauto.
Qed.

(** The pass over the columns of W. *)
Lemma update_basis_frame (p : params) (C D : matrix) (st st' : state e) :
  update_basis e p C D st = Ok st' ->
  H st' = H st /\ sigma st' = sigma st /\ sweeps st' = sweeps st /\
  shape0 (W st') = shape0 (W st) /\ shape1 (W st') = shape1 (W st) /\
  (forall c, n_w p !! c = Some true ->
             forall r, item (W st') r c = item (W st) r c) /\
  (clean_matrix (W st) -> clean_matrix (W st')).
Proof.
  unfold update_basis.
  apply (for_each_inv
    (fun t => H t = H st /\ sigma t = sigma st /\ sweeps t = sweeps st /\
       shape0 (W t) = shape0 (W st) /\ shape1 (W t) = shape1 (W st) /\
       (forall c, n_w p !! c = Some true ->
                  forall r, item (W t) r c = item (W st) r c) /\
       (clean_matrix (W st) -> clean_matrix (W t)))).
  - intros n t t' _ (IH1 & IH2 & IH3 & IH4 & IH5 & IH6 & IH7) Hstep.
    apply update_basis_col_frame in Hstep
      as (S1 & S2 & S3 & S4 & S5 & S6 & S7 & S8).
    repeat split; try congruence; auto.
    intros c Hc r. destruct (Nat.eq_dec c n) as [->|Hne].
    + rewrite (S7 Hc). apply IH6, Hc.
    + rewrite S6 by exact Hne. apply IH6, Hc.
  - repeat split; auto.
Qed.

(** The pass over the rows of H. *)
Lemma update_mixture_frame (p : params) (E Fm : matrix) (st st' : state e) :
  update_mixture e p E Fm st = Ok st' ->
  W st' = W st /\ sigma st' = sigma st /\ sweeps st' = sweeps st /\
  shape0 (H st') = shape0 (H st) /\ shape1 (H st') = shape1 (H st) /\
  (forall r, n_h p !! r = Some true ->
             forall c, item (H st') r c = item (H st) r c) /\
  (clean_matrix (H st) -> clean_matrix (H st')).
Proof.
  unfold update_mixture.
  apply (for_each_inv
    (fun t => W t = W st /\ sigma t = sigma st /\ sweeps t = sweeps st /\
       shape0 (H t) = shape0 (H st) /\ shape1 (H t) = shape1 (H st) /\
       (forall r, n_h p !! r = Some true ->
                  forall c, item (H t) r c = item (H st) r c) /\
       (clean_matrix (H st) -> clean_matrix (H t)))).
  - intros n t t' _ (IH1 & IH2 & IH3 & IH4 & IH5 & IH6 & IH7) Hstep.
    apply update_mixture_row_frame in Hstep
      as (S1 & S2 & S3 & S4 & S5 & S6 & S7 & S8).
    repeat split; try congruence; auto.
    intros r Hr c. destruct (Nat.eq_dec r n) as [->|Hne].
    + rewrite (S7 Hr). apply IH6, Hr.
    + rewrite S6 by exact Hne. apply IH6, Hr.
  - repeat split; auto.
Qed.

(** The noise-variance step touches neither factor. *)
Lemma update_sigma_frame (p : params) (v : float) (C D : matrix)
  (st st' : state e) :
  update_sigma e p v C D st = Ok st' ->
  W st' = W st /\ H st' = H st /\ sweeps st' = sweeps st /\
  (n_sigma p = true -> st' = st).
Proof.
  unfold update_sigma. destruct (n_sigma p).
  - intros [= <-]. auto.
  - intros Hrun. bind_inv Hrun as scale Hscale. bind_inv Hrun as [x g'] Hx.
    bind_inv Hrun as s Hs. injection Hrun as <-. cbn [W H sweeps].
    repeat split; auto. discriminate.
Qed.

(** The three passes of a sweep, as the sweep composes them. *)
Lemma sweep_passes (p : params) (v : float) (st st' : state e) :
  sweep e p v st = Ok st' ->
  exists C D st1 st2 E Fm st3,
    dot (H st) (Mat.T (H st)) = Ok C /\
    dot (V p) (Mat.T (H st)) = Ok D /\
    update_basis e p C D st = Ok st1 /\
    update_sigma e p v C D st1 = Ok st2 /\
    dot (Mat.T (W st2)) (W st2) = Ok E /\
    dot (Mat.T (W st2)) (V p) = Ok Fm /\
    update_mixture e p E Fm st2 = Ok st3 /\
    W st' = W st3 /\ H st' = H st3 /\ sigma st' = sigma st3 /\
    gen st' = gen st3 /\ sweeps st' = S (sweeps st3).
Proof.
  unfold sweep. intros Hrun.
  bind_inv Hrun as C HC. bind_inv Hrun as D HD. bind_inv Hrun as st1 H1.
  bind_inv Hrun as st2 H2. bind_inv Hrun as E HE. bind_inv Hrun as Fm HF.
  bind_inv Hrun as st3 H3. injection Hrun as <-.
  exists C, D, st1, st2, E, Fm, st3. cbn [W H sigma gen sweeps].
  repeat split; assumption.
Qed.

(** What one sweep leaves alone. *)
Lemma sweep_frame (p : params) (v : float) (st st' : state e) :
  sweep e p v st = Ok st' ->
  sweeps st' = S (sweeps st) /\
  shape0 (W st') = shape0 (W st) /\ shape1 (W st') = shape1 (W st) /\
  shape0 (H st') = shape0 (H st) /\ shape1 (H st') = shape1 (H st) /\
  (forall c, n_w p !! c = Some true ->
             forall r, item (W st') r c = item (W st) r c) /\
  (forall r, n_h p !! r = Some true ->
             forall c, item (H st') r c = item (H st) r c) /\
  (n_sigma p = true -> sigma st' = sigma st) /\
  (clean_matrix (W st) -> clean_matrix (W st')) /\
  (clean_matrix (H st) -> clean_matrix (H st')).
Proof.
  intros Hrun.
  apply sweep_passes in Hrun
    as (C & D & st1 & st2 & E & Fm & st3 & _ & _ & Hb & Hs & _ & _ & Hm
        & HW & HH & Hsig & _ & Hsw).
  apply update_basis_frame in Hb as (B1 & B2 & B3 & B4 & B5 & B6 & B7).
  apply update_sigma_frame in Hs as (S1 & S2 & S3 & S4).
  apply update_mixture_frame in Hm as (M1 & M2 & M3 & M4 & M5 & M6 & M7).
  rewrite HW, HH, Hsig, Hsw.
  repeat split; try congruence.
  - intros c Hc r. rewrite M1, S1. apply B6, Hc.
  - intros r Hr c. rewrite (M6 r Hr c), S2, B1. reflexivity.
  - intros Hfrozen. rewrite M2, (S4 Hfrozen). exact B2.
  - intros Hclean. rewrite M1, S1. apply B7, Hclean.
  - intros Hclean. apply M7. rewrite S2, B1. exact Hclean.
Qed.

End SweepFacts.

(** ** The index list of the leave-one-out residual *)

(** The index list of the source always holds [n] itself. *)
Lemma nn_of_keeps (n rank : nat) : (n < rank)%nat -> In n (nn_of n rank).
Proof.
  intros Hn. unfold nn_of, xrange, xrange2. apply in_or_app. right.
  apply in_seq. lia.
Qed.

(** From the second index on it leaves out [n - 1] instead. *)
Lemma nn_of_drops (n rank : nat) : (0 < n)%nat -> ~ In (n - 1)%nat (nn_of n rank).
Proof.
  intros Hn Hin. unfold nn_of, xrange, xrange2 in Hin.
  apply in_app_or in Hin as [Hin|Hin]; apply in_seq in Hin; lia.
Qed.

(** The index list of the specification never holds [n]. *)
Lemma leave_one_out_drops (n rank : nat) : ~ In n (leave_one_out n rank).
Proof.
  unfold leave_one_out. intros Hin. apply filter_In in Hin as [_ Hin].
  rewrite Nat.eqb_refl in Hin. discriminate.
Qed.

(** C1: the conditional mean handed to the sampler is not the leave-one-out
    residual.  For rank 2 the index list of the source is [0; 1] for column 0
    and [1] for column 1, where leaving one out gives [1] and [0]; on the
    target [[3]] with W = [[1, 2]] and H = [[1], [1]] the mean of column 1 is
    1 in the source and 2 when column 1 is left out, and the mean of row 1
    of H is 1/2 in the source and 1 when row 1 is left out. *)
Theorem C1_residual_keeps_own_index :
  nn_of 0 2 = [0; 1]%nat /\ leave_one_out 0 2 = [1]%nat /\
  nn_of 1 2 = [1]%nat /\ leave_one_out 1 2 = [0]%nat /\
  (let p := _set_params job_small in
   let st := state_small in
   (C ← dot (H st) (Mat.T (H st)); D ← dot (V p) (Mat.T (H st));
    basis_mean test_env p C D 1 st) = Ok [F.of_Z 1]
   /\ (C ← dot (H st) (Mat.T (H st)); D ← dot (V p) (Mat.T (H st));
       loo_basis_mean p C D 1 st) = Ok [F.of_Z 2]
   /\ (E ← dot (Mat.T (W st)) (W st); Fm ← dot (Mat.T (W st)) (V p);
       mixture_mean test_env p E Fm 1 st) = Ok [half]
   /\ (E ← dot (Mat.T (W st)) (W st); Fm ← dot (Mat.T (W st)) (V p);
       loo_mixture_mean p E Fm 1 st) = Ok [F.of_Z 1]).
Proof. vm_compute. repeat split; reflexivity. Qed.

(** ** The stopping rule *)

Lemma _is_satisfied_stop (p : params) (pobj cobj : float) (iter : Z) :
  _is_satisfied p pobj cobj iter = false <-> stop_condition p pobj cobj iter.
Proof.
  unfold _is_satisfied, stop_condition. split.
  - destruct (max_iter p) as [mi|] eqn:Hmax.
    + destruct (negb (mi =? 0) && (mi <? iter)) eqn:H1.
      * intros _. left. exists mi.
        apply andb_true_iff in H1 as [Hz Hlt].
        apply negb_true_iff, Z.eqb_neq in Hz. apply Z.ltb_lt in Hlt. auto.
      * destruct (min_residuals p) as [r|] eqn:Hres.
        -- destruct (F.truthy r && (0 <? iter) && F.leb (F.sub cobj pobj) r)
             eqn:H2.
           ++ intros _. right. left. exists r.
              apply andb_true_iff in H2 as [H2 Hle].
              apply andb_true_iff in H2 as [Ht Hpos].
              apply Z.ltb_lt in Hpos. auto.
           ++ destruct ((0 <? iter) && F.leb pobj cobj) eqn:H3;
                [|discriminate].
              intros _. right. right.
              apply andb_true_iff in H3 as [Hpos Hle].
              apply Z.ltb_lt in Hpos. auto.
        -- destruct ((0 <? iter) && F.leb pobj cobj) eqn:H3; [|discriminate].
           intros _. right. right.
           apply andb_true_iff in H3 as [Hpos Hle].
           apply Z.ltb_lt in Hpos. auto.
    + destruct (min_residuals p) as [r|] eqn:Hres.
      * destruct (F.truthy r && (0 <? iter) && F.leb (F.sub cobj pobj) r)
          eqn:H2.
        -- intros _. right. left. exists r.
           apply andb_true_iff in H2 as [H2 Hle].
           apply andb_true_iff in H2 as [Ht Hpos].
           apply Z.ltb_lt in Hpos. auto.
        -- destruct ((0 <? iter) && F.leb pobj cobj) eqn:H3; [|discriminate].
           intros _. right. right.
           apply andb_true_iff in H3 as [Hpos Hle].
           apply Z.ltb_lt in Hpos. auto.
      * destruct ((0 <? iter) && F.leb pobj cobj) eqn:H3; [|discriminate].
        intros _. right. right.
        apply andb_true_iff in H3 as [Hpos Hle].
        apply Z.ltb_lt in Hpos. auto.
  - intros [(mi & Hmax & Hz & Hlt) | [(r & Hres & Ht & Hpos & Hle) | (Hpos & Hle)]].
    + rewrite Hmax.
      apply Z.eqb_neq in Hz. apply Z.ltb_lt in Hlt. rewrite Hz, Hlt.
      reflexivity.
    + apply Z.ltb_lt in Hpos. rewrite Hres, Ht, Hpos, Hle. cbn [andb].
      destruct (match max_iter p with Some _ => _ | None => _ end);
        reflexivity.
    + apply Z.ltb_lt in Hpos. rewrite Hpos, Hle. cbn [andb].
      destruct (match max_iter p with Some _ => _ | None => _ end);
        [reflexivity|].
      destruct (match min_residuals p with Some _ => _ | None => _ end);
        reflexivity.
Qed.

(** C2: the loop of a run stops exactly when one of the three conditions
    holds (the iteration counter exceeds a configured max_iter; min_residuals
    is configured, the counter is positive and cobj - pobj <= min_residuals;
    the counter is positive and cobj >= pobj), and makes another pass
    otherwise. *)
Theorem C2_stopping_rule (e : env) (p : params) (v : float)
  (ls : loop_state e) :
  (_is_satisfied p (pobj ls) (cobj ls) (iter ls) = false
   <-> stop_condition p (pobj ls) (cobj ls) (iter ls))
  /\ (stop_condition p (pobj ls) (cobj ls) (iter ls) ->
      forall fuel, while_loop e fuel p v ls = Ok ls)
  /\ (~ stop_condition p (pobj ls) (cobj ls) (iter ls) ->
      forall fuel,
        while_loop e (S fuel) p v ls
        = (st' ← update e p v (iter ls) (cur ls);
           c ← (if recompute p (iter ls) then objective e p st'
                else Ok (cobj ls));
           while_loop e fuel p v
             {| cur := st'; pobj := cobj ls; cobj := c;
                iter := iter ls + 1 |})).
Proof.
  pose proof (_is_satisfied_stop p (pobj ls) (cobj ls) (iter ls)) as Hiff.
  split; [exact Hiff|]. split.
  - intros Hstop fuel. apply Hiff in Hstop.
    destruct fuel; simpl; rewrite Hstop; reflexivity.
  - intros Hgo fuel.
    destruct (_is_satisfied p (pobj ls) (cobj ls) (iter ls)) eqn:Hsat.
    + simpl. rewrite Hsat. reflexivity.
    + exfalso. apply Hgo, Hiff. reflexivity.
Qed.

Lemma C2_stopping_rule_witness :
  stop_condition (_set_params job_plain) F.one F.one 1
  /\ while_loop test_env 5 (_set_params job_plain) F.zero
       (Build_loop_state test_env state_ones F.one F.one 1)
     = Ok (Build_loop_state test_env state_ones F.one F.one 1).
Proof.
  assert (Hstop : stop_condition (_set_params job_plain) F.one F.one 1)
    by (right; right; split; [lia | reflexivity]).
  split; [exact Hstop|].
  exact (proj1 (proj2 (C2_stopping_rule test_env (_set_params job_plain) F.zero
                         (Build_loop_state test_env state_ones F.one F.one 1)))
               Hstop 5%nat).
Defined.

(** ** Parameter setup *)

(** After the parameter setup max_iter holds a value other than 0. *)
Lemma _set_params_max_iter (j : job) :
  max_iter (_set_params j)
  = (if truthy_int (job_max_iter j) then job_max_iter j else Some 30)
  /\ exists mi, max_iter (_set_params j) = Some mi /\ mi <> 0.
Proof.
  assert (Hmax : max_iter (_set_params j)
                 = if truthy_int (job_max_iter j) then job_max_iter j
                   else Some 30).
  { cbn [_set_params max_iter]. destruct (truthy_int (job_max_iter j));
      reflexivity. }
  split; [exact Hmax|]. rewrite Hmax.
  destruct (job_max_iter j) as [mi|]; cbn [truthy_int].
  - destruct (Z.eqb_spec mi 0) as [->|Hne]; cbn [negb].
    + exists 30. split; [reflexivity | lia].
    + exists mi. split; [reflexivity | exact Hne].
  - exists 30. split; [reflexivity | lia].
Qed.

(** C10: a max_iter that is unset or false for Python (such as 0) is replaced
    by 30 in the parameter setup and a true one is kept; so the attribute is
    never 0, it is true whenever the stopping rule reads it, and the rule
    stops every pass whose counter exceeds it. *)
Theorem C10_max_iter_default (j : job) :
  truthy_int (max_iter (_set_params j)) = true
  /\ max_iter (_set_params j) <> Some 0
  /\ max_iter (_set_params j)
     = (if truthy_int (job_max_iter j) then job_max_iter j else Some 30)
  /\ exists mi, max_iter (_set_params j) = Some mi /\ mi <> 0
       /\ forall pobj cobj iter,
            mi < iter -> _is_satisfied (_set_params j) pobj cobj iter = false.
Proof.
  destruct (_set_params_max_iter j) as (Hmax & mi & Hmi & Hz).
  split; [|split; [|split]].
  - rewrite Hmi. cbn [truthy_int]. apply negb_true_iff, Z.eqb_neq, Hz.
  - rewrite Hmi. congruence.
  - exact Hmax.
  - exists mi. split; [exact Hmi|]. split; [exact Hz|].
    intros pobj cobj iter Hlt. apply _is_satisfied_stop.
    left. exists mi. auto.
Qed.

Lemma C10_max_iter_default_witness :
  max_iter (_set_params job_frozen) = Some 30
  /\ _is_satisfied (_set_params job_frozen) F.one F.zero 31 = false.
Proof.
  destruct (C10_max_iter_default job_frozen)
    as (_ & _ & Hmax & mi & Hmi & _ & Hstop).
  split; [exact Hmax|].
  apply Hstop. rewrite Hmax in Hmi. injection Hmi as <-. reflexivity.
Defined.

(** ** The two branches of the sampler *)

Lemma map_lookup {A B : Type} (f : A -> B) (t : list A) (i : nat) (x : A) :
  t !! i = Some x -> map f t !! i = Some (f x).
Proof.
  revert i. induction t as [|y t IH]; intros [|i]; simpl; try discriminate.
  - intros [= ->]. reflexivity.
  - apply IH.
Qed.

(** C7: in the sampler, before the post-processing, exactly the entries with
    A = (l*s - m)/sqrt(2s) > 26 hold the exponential-tail draw
    -ln(u)/((l*s - m)/s), and all other entries hold the inverse-CDF draw
    erfcinv(u*R - 1_{A<0}*(2u + R - 2))*sqrt(2s) + m - l*s with
    R = erfc(|A|); [u] is the uniform draw of the entry and [r] the root
    sqrt(2s). *)
Theorem C7_sampler_branches (e : env) (m : vec) (r s : float) (l : vec)
  (g : rng e) (i : nat) (mi li u : float) :
  length l = length m ->
  sqrt e (F.mul F.two s) = Ok r ->
  m !! i = Some mi -> l !! i = Some li ->
  fst (rand e (length m) g) !! i = Some u ->
  exists x g',
    _randr_draw e m s l g = Ok (x, g')
    /\ (F.ltb twenty_six (tilt r s mi li) = true ->
        x !! i = Some (tail_draw e s mi li u))
    /\ (F.ltb twenty_six (tilt r s mi li) = false ->
        x !! i = Some (exact_draw e r s mi li u)).
Proof.
  intros Hlen Hsqrt Hm Hl Hu.
  exists (map (candidate e r s) (zip3 m l (fst (rand e (length m) g)))),
         (snd (rand e (length m) g)).
  split; [apply _randr_draw_entrywise; assumption|].
  pose proof (zip3_lookup _ _ _ _ _ _ _ Hm Hl Hu) as Hz.
  apply (map_lookup (candidate e r s)) in Hz.
  split; intros Hb; refine (eq_trans Hz _); cbn [candidate]; rewrite Hb;
    reflexivity.
Qed.

Lemma C7_sampler_branches_witness :
  exists x g',
    _randr_draw test_env [F.of_Z 1; F.of_Z (-100)] F.one [F.zero; F.zero]
                0%nat = Ok (x, g')
    /\ (F.ltb twenty_six
          (tilt (F.sqrt F.two) F.one (F.of_Z (-100)) F.zero) = true ->
        x !! 1%nat
        = Some (tail_draw test_env F.one (F.of_Z (-100)) F.zero half))
    /\ (F.ltb twenty_six
          (tilt (F.sqrt F.two) F.one (F.of_Z (-100)) F.zero) = false ->
        x !! 1%nat
        = Some (exact_draw test_env (F.sqrt F.two) F.one (F.of_Z (-100))
                           F.zero half)).
Proof.
  apply (C7_sampler_branches test_env [F.of_Z 1; F.of_Z (-100)] (F.sqrt F.two)
           F.one [F.zero; F.zero] 0%nat 1%nat (F.of_Z (-100)) F.zero half);
    reflexivity.
Defined.

(** ** Clean entries *)

Section RunFacts.

Variable e : env.

Lemma update_inv (P : state e -> Prop) (p : params) (v : float) (it : Z)
  (st st' : state e) :
  (forall t t', P t -> sweep e p v t = Ok t' -> P t') ->
  P st -> update e p v it st = Ok st' -> P st'.
Proof. intros Hstep. unfold update. apply repeat_step_inv. exact Hstep. Qed.

(** An invariant of the passes of the loop holds when the loop ends, and the
    loop ends only where the stopping rule says so. *)
Lemma while_loop_inv (Q : loop_state e -> Prop) (p : params) (v : float)
  (fuel : nat) (ls ls' : loop_state e) :
  (forall l st' c,
     Q l -> _is_satisfied p (pobj l) (cobj l) (iter l) = true ->
     update e p v (iter l) (cur l) = Ok st' ->
     (if recompute p (iter l) then objective e p st' else Ok (cobj l)) = Ok c ->
     Q {| cur := st'; pobj := cobj l; cobj := c; iter := iter l + 1 |}) ->
  Q ls -> while_loop e fuel p v ls = Ok ls' ->
  Q ls' /\ _is_satisfied p (pobj ls') (cobj ls') (iter ls') = false.
Proof.
  intros Hstep. revert ls. induction fuel as [|fuel IH]; intros ls HQ Hrun;
    simpl in Hrun;
    destruct (_is_satisfied p (pobj ls) (cobj ls) (iter ls)) eqn:Hsat;
    try discriminate.
  - injection Hrun as <-. auto.
  - bind_inv Hrun as st' Hst'. bind_inv Hrun as c Hc.
    apply (IH _ (Hstep ls st' c HQ Hsat Hst' Hc) Hrun).
  - injection Hrun as <-. auto.
Qed.

(** The loop state the last run of a successful job ended in. *)
Lemma factorize_last (j : job) (g : rng e) (f : fit e) :
  factorize e j g = Ok f ->
  exists v acc ls,
    job_v (_set_params j) = Ok v
    /\ one_run e (_set_params j) v acc = Ok
         {| last := Some ls; carried_sigma := sigma (cur ls);
            carried_gen := gen (cur ls); callbacks := fit_callbacks f;
            tracked := fit_tracked f |}
    /\ fitted f = cur ls /\ n_iter f = iter ls - 1 /\ final_obj f = cobj ls.
Proof.
  unfold factorize. intros Hrun. bind_inv Hrun as v Hv.
  bind_inv Hrun as acc Hacc.
  destruct (last acc) as [ls|] eqn:Hlast; [|discriminate].
  injection Hrun as <-. cbn [fitted n_iter final_obj fit_callbacks fit_tracked].
  exists v.
  assert (Hinv : match last acc with
                 | Some ls0 => exists acc0,
                     one_run e (_set_params j) v acc0 = Ok acc
                 | None => True
                 end).
  { revert Hacc.
    apply (for_each_inv
             (fun a => match last a with
                       | Some ls0 => exists acc0,
                           one_run e (_set_params j) v acc0 = Ok a
                       | None => True
                       end)); [|exact I].
    intros x t t' _ _ Hone.
    destruct (last t') eqn:Ht'; [|exact I]. exists t. exact Hone. }
  rewrite Hlast in Hinv. destruct Hinv as (acc0 & Hone).
  exists acc0, ls. repeat split.
  - exact Hv.
  - rewrite Hone. f_equal.
    unfold one_run in Hone.
    destruct (seed_initialize e _ _ _ _) as [[W0 H0] g1].
    bind_inv Hone as o Ho. bind_inv Hone as ls1 Hls1.
    injection Hone as <-. cbn [last] in Hlast. injection Hlast as <-.
    reflexivity.
Qed.

(** What [one_run] runs: the loop, from counter 0, on the seeded factors. *)
Lemma one_run_loop (p : params) (v : float) (acc acc' : runs e) :
  one_run e p v acc = Ok acc' ->
  exists o ls,
    let sd := seed_initialize e (V p) (rank p) (opts p) (carried_gen acc) in
    let st0 := {| W := fst (fst sd); H := snd (fst sd);
                  sigma := carried_sigma acc; gen := snd sd; sweeps := 0 |} in
    objective e p st0 = Ok o
    /\ while_loop e (loop_fuel p) p v
         {| cur := st0; pobj := o; cobj := o; iter := 0 |} = Ok ls
    /\ last acc' = Some ls.
Proof.
  unfold one_run.
  destruct (seed_initialize e (V p) (rank p) (opts p) (carried_gen acc))
    as [[W0 H0] g1].
  intros Hone. bind_inv Hone as o Ho. bind_inv Hone as ls Hls.
  injection Hone as <-. exists o, ls. cbn [fst snd last]. auto.
Qed.

End RunFacts.

Lemma test_env_seeds_clean : seeds_clean test_env.
Proof. intros Vm r o g. split; intros i j _ _; reflexivity. Qed.

(** C4: every vector the sampler returns has only entries that are neither
    NaN, nor negative, nor infinite: it is the vector of candidate values
    with each such value replaced by 0 itself; the sampler returns whenever
    mean and tilt have one length and the root of 2s is defined; and, the seeding strategy returning clean
    nonnegative factors, the W and H of a finished job have only such
    entries. *)
Theorem C4_clean_entries (e : env) :
  (forall m s l g x g',
     _randr e m s l g = Ok (x, g') ->
     Forall (fun t => clean t = true) x
     /\ exists c, _randr_draw e m s l g = Ok (c, g')
                  /\ x = map zero_unsafe c)
  /\ (forall t, zero_unsafe t
                = if F.isnan t || F.ltb t F.zero || F.isinf t
                  then S754_zero false else t)
  /\ (forall t, clean t = true ->
                F.isnan t = false /\ F.isinf t = false
                /\ F.ltb t F.zero = false /\ F.leb F.zero t = true)
  /\ (forall m r s l g,
        length l = length m -> sqrt e (F.mul F.two s) = Ok r ->
        exists x g', _randr e m s l g = Ok (x, g'))
  /\ (seeds_clean e ->
      forall j g f,
        factorize e j g = Ok f ->
        clean_matrix (W (fitted f)) /\ clean_matrix (H (fitted f))).
Proof.
  split; [|split; [|split; [|split]]].
  - intros m s l g x g' Hx. split.
    + apply (_randr_clean e m s l g g' x Hx).
    + apply _randr_post in Hx as (c & Hc & ->). exists c. auto.
  - reflexivity.
  - intros t Ht. unfold clean in Ht.
    destruct t as [sg|sg| |sg mt et]; try destruct sg; try discriminate;
      repeat split; reflexivity.
  - intros m r s l g Hlen Hr. unfold _randr.
    rewrite (_randr_draw_entrywise e m r s l g Hlen Hr). eexists. eexists.
    reflexivity.
  - intros Hseed j g f Hf.
    apply factorize_last in Hf as (v & acc & ls & _ & Hone & -> & _).
    apply one_run_loop in Hone as (o & ls' & _ & Hloop & Hlast).
    cbn [last] in Hlast. injection Hlast as ->.
    refine (proj1 (while_loop_inv e
              (fun l => clean_matrix (W (cur l)) /\ clean_matrix (H (cur l)))
              _ _ _ _ _ _ _ Hloop)).
    + intros l st' c Hl _ Hup _. cbn [cur]. revert Hup.
      apply (update_inv e (fun t => clean_matrix (W t) /\ clean_matrix (H t)));
        [|exact Hl].
      intros t t' [HW HH] Hsw. apply sweep_frame in Hsw.
      split; [apply Hsw, HW | apply Hsw, HH].
    + cbn [cur W H]. apply Hseed.
Qed.

Lemma C4_clean_entries_witness :
  exists f,
    factorize test_env job_plain 0%nat = Ok f
    /\ clean_matrix (W (fitted f)) /\ clean_matrix (H (fitted f)).
Proof.
  destruct (factorize test_env job_plain 0%nat) as [f|err] eqn:Hf.
  - exists f. split; [reflexivity|].
    exact (proj2 (proj2 (proj2 (proj2 (C4_clean_entries test_env))))
                 test_env_seeds_clean job_plain 0%nat f Hf).
  - exfalso. apply (is_Ok_Raise _ _ Hf). vm_compute. reflexivity.
Defined.

(** ** Counting sweeps *)

Section Counting.

Variable e : env.

Lemma n_sweeps_first (p : params) : n_sweeps p 0 = Z.to_nat (skip p).
Proof.
  unfold n_sweeps, xrange. rewrite length_seq. cbn [Z.eqb Z.ltb Z.compare Z_of_bool].
  f_equal. lia.
Qed.

Lemma n_sweeps_later (p : params) (it : Z) :
  0 < it -> n_sweeps p it = Z.to_nat (stride p).
Proof.
  intros Hit. unfold n_sweeps, xrange. rewrite length_seq.
  destruct (Z.eqb_spec it 0) as [->|_]; [lia|].
  destruct (Z.ltb_spec 0 it); [|lia]. cbn [Z_of_bool]. f_equal. lia.
Qed.

Lemma repeat_step_sweeps (p : params) (v : float) (n : nat)
  (st st' : state e) :
  repeat_step n (sweep e p v) st = Ok st' ->
  sweeps st' = (sweeps st + n)%nat.
Proof.
  revert st. induction n as [|n IH]; intros st Hrun; simpl in Hrun.
  - injection Hrun as <-. lia.
  - bind_inv Hrun as t Ht. apply sweep_frame in Ht as (Ht & _).
    rewrite (IH t Hrun), Ht. lia.
Qed.

Lemma sweeps_after_next (p : params) (it : Z) :
  0 <= it ->
  sweeps_after p (it + 1) = (sweeps_after p it + n_sweeps p it)%nat.
Proof.
  intros Hit. unfold sweeps_after.
  destruct (Z.leb_spec (it + 1) 0); [lia|].
  destruct (Z.leb_spec it 0).
  - assert (it = 0) as -> by lia. rewrite n_sweeps_first. cbn. lia.
  - rewrite n_sweeps_later by lia.
    replace (it + 1 - 1) with (Z.succ (it - 1)) by lia.
    rewrite Z2Nat.inj_succ by lia. lia.
Qed.

(** The sweeps of a run at the end of its loop. *)
Lemma while_loop_sweeps (p : params) (v : float) (fuel : nat)
  (ls ls' : loop_state e) :
  0 <= iter ls -> sweeps (cur ls) = sweeps_after p (iter ls) ->
  while_loop e fuel p v ls = Ok ls' ->
  0 <= iter ls' /\ sweeps (cur ls') = sweeps_after p (iter ls').
Proof.
  intros Hit Hsw Hrun.
  refine (proj1 (while_loop_inv e
            (fun l => 0 <= iter l /\ sweeps (cur l) = sweeps_after p (iter l))
            p v fuel ls ls' _ (conj Hit Hsw) Hrun)).
  intros l st' c [Hl1 Hl2] _ Hup _. cbn [iter cur]. split; [lia|].
  unfold update in Hup. apply repeat_step_sweeps in Hup.
  rewrite sweeps_after_next by exact Hl1. lia.
Qed.

End Counting.



(** ** Frozen coordinates *)

(** C8: whatever the configuration and the number of sweeps, a column of W
    whose entry of n_w is set, a row of H whose entry of n_h is set and, with
    n_sigma set, sigma are after the sweeps what they were before, and the
    factors keep their shapes. *)
Theorem C8_frozen_untouched (e : env) (p : params) (v : float) (n : nat)
  (st st' : state e) :
  repeat_step n (sweep e p v) st = Ok st' ->
  (forall c, n_w p !! c = Some true ->
             forall r, item (W st') r c = item (W st) r c)
  /\ (forall r, n_h p !! r = Some true ->
                forall c, item (H st') r c = item (H st) r c)
  /\ (n_sigma p = true -> sigma st' = sigma st)
  /\ shape0 (W st') = shape0 (W st) /\ shape1 (W st') = shape1 (W st)
  /\ shape0 (H st') = shape0 (H st) /\ shape1 (H st') = shape1 (H st).
Proof.
  apply (repeat_step_inv
    (fun t =>
       (forall c, n_w p !! c = Some true ->
                  forall r, item (W t) r c = item (W st) r c)
       /\ (forall r, n_h p !! r = Some true ->
                     forall c, item (H t) r c = item (H st) r c)
       /\ (n_sigma p = true -> sigma t = sigma st)
       /\ shape0 (W t) = shape0 (W st) /\ shape1 (W t) = shape1 (W st)
       /\ shape0 (H t) = shape0 (H st) /\ shape1 (H t) = shape1 (H st))).
  - intros t t' (I1 & I2 & I3 & I4 & I5 & I6 & I7) Hsw.
    apply sweep_frame in Hsw as (_ & S1 & S2 & S3 & S4 & S5 & S6 & S7 & _).
    repeat split; try congruence.
    + intros c Hc r. rewrite (S5 c Hc r). apply I1, Hc.
    + intros r Hr c. rewrite (S6 r Hr c). apply I2, Hr.
    + intros Hfrozen. rewrite (S7 Hfrozen). apply I3, Hfrozen.
  - repeat split; auto.
Qed.

Lemma C8_frozen_untouched_witness :
  exists st',
    repeat_step 2 (sweep test_env (_set_params job_partly_frozen) F.zero)
                state_ones = Ok st'
    /\ (forall r, item (W st') r 1%nat = item (W state_ones) r 1%nat)
    /\ (forall c, item (H st') 0%nat c = item (H state_ones) 0%nat c)
    /\ sigma st' = sigma state_ones.
Proof.
  destruct (repeat_step 2 (sweep test_env (_set_params job_partly_frozen)
                                 F.zero) state_ones) as [st'|err] eqn:Hrun.
  - exists st'. split; [reflexivity|].
    pose proof (C8_frozen_untouched test_env (_set_params job_partly_frozen)
                  F.zero 2 state_ones st' Hrun) as (HW & HH & Hs & _).
    split; [|split].
    + apply (HW 1%nat). reflexivity.
    + apply (HH 0%nat). reflexivity.
    + apply Hs. reflexivity.
  - exfalso. apply (is_Ok_Raise _ _ Hrun). vm_compute. reflexivity.
Defined.

(** ** The reported count *)

Section Reporting.

Variable e : env.

(** With max_iter configured, the stopping rule ends the loop before the
    bound of the model does: any two bounds above the remaining passes give
    one result. *)
Lemma while_loop_fuel (p : params) (v : float) (mi : Z) (fuel1 fuel2 : nat)
  (ls : loop_state e) :
  max_iter p = Some mi -> mi <> 0 ->
  (Z.to_nat (mi + 1 - iter ls) < fuel1)%nat ->
  (Z.to_nat (mi + 1 - iter ls) < fuel2)%nat ->
  while_loop e fuel1 p v ls = while_loop e fuel2 p v ls.
Proof.
  intros Hmax Hz. revert fuel2 ls.
  induction fuel1 as [|fuel1 IH]; intros fuel2 ls H1 H2; [lia|].
  destruct fuel2 as [|fuel2]; [lia|]. simpl.
  destruct (_is_satisfied p (pobj ls) (cobj ls) (iter ls)) eqn:Hsat;
    [|reflexivity].
  assert (Hle : iter ls <= mi).
  { destruct (Z.le_gt_cases (iter ls) mi) as [Hle|Hgt]; [exact Hle|].
    exfalso. assert (Hstop : _is_satisfied p (pobj ls) (cobj ls) (iter ls)
                             = false).
    { apply _is_satisfied_stop. left. exists mi. repeat split; auto; lia. }
    congruence. }
  destruct (update e p v (iter ls) (cur ls)) as [st'|err]; [|reflexivity].
  cbn [mbind result_bind].
  destruct (if recompute p (iter ls) then objective e p st' else Ok (cobj ls))
    as [c|err]; [|reflexivity].
  cbn [mbind result_bind]. apply IH; cbn [iter]; lia.
Qed.

(** The loop counter has advanced by the number of calls of [update]. *)
Lemma while_loop_calls (p : params) (v : float) (fuel : nat)
  (ls ls' : loop_state e) :
  while_loop e fuel p v ls = Ok ls' ->
  iter ls' = iter ls + Z.of_nat (update_calls e fuel p v ls).
Proof.
  revert ls. induction fuel as [|fuel IH]; intros ls Hrun;
    cbn [while_loop update_calls] in *;
    destruct (_is_satisfied p (pobj ls) (cobj ls) (iter ls));
    try discriminate.
  - injection Hrun as <-. lia.
  - destruct (update e p v (iter ls) (cur ls)) as [st'|err]; [|discriminate].
    cbn [mbind result_bind] in Hrun.
    destruct (if recompute p (iter ls) then objective e p st'
              else Ok (cobj ls)) as [c|err]; [|discriminate].
    cbn [mbind result_bind] in Hrun. rewrite (IH _ Hrun). cbn [iter]. lia.
  - injection Hrun as <-. lia.
Qed.

(** Where the stopping rule says stop, the loop is left with the state it
    has. *)
Lemma while_loop_stops (p : params) (v : float) (fuel : nat)
  (ls : loop_state e) :
  _is_satisfied p (pobj ls) (cobj ls) (iter ls) = false ->
  while_loop e fuel p v ls = Ok ls.
Proof. intros Hstop. destruct fuel; cbn [while_loop]; rewrite Hstop; reflexivity. Qed.

(** The loop counter never passes max_iter + 1. *)
Lemma while_loop_bound (p : params) (v : float) (mi : Z) (fuel : nat)
  (ls ls' : loop_state e) :
  max_iter p = Some mi -> mi <> 0 ->
  iter ls <= Z.max 0 (mi + 1) ->
  while_loop e fuel p v ls = Ok ls' ->
  iter ls' <= Z.max 0 (mi + 1).
Proof.
  intros Hmax Hz Hit Hrun.
  refine (proj1 (while_loop_inv e (fun l => iter l <= Z.max 0 (mi + 1))
                   p v fuel ls ls' _ Hit Hrun)).
  intros l st' c Hl Hsat _ _. cbn [iter].
  destruct (Z.le_gt_cases (iter l) mi) as [Hle|Hgt]; [lia|].
  exfalso. assert (Hstop : _is_satisfied p (pobj l) (cobj l) (iter l) = false).
  { apply _is_satisfied_stop. left. exists mi. repeat split; auto; lia. }
  congruence.
Qed.

End Reporting.

(** C9, the claim as it stands, fails: with everything frozen and a burn-in
    of 3 the run makes 3 sweeps, stops at its first evaluation and reports
    n_iter = 0. *)
Lemma C9_counterexample :
  exists f,
    factorize test_env job_frozen 0%nat = Ok f
    /\ n_iter f = 0 /\ sweeps (fitted f) = 3%nat
    /\ n_iter f <> Z.of_nat (sweeps (fitted f)).
Proof.
  assert (Hb : match factorize test_env job_frozen 0%nat with
               | Ok f => (n_iter f =? 0) && (sweeps (fitted f) =? 3)%nat
               | Raise _ => false
               end = true) by (vm_compute; reflexivity).
  destruct (factorize test_env job_frozen 0%nat) as [f|err]; [|discriminate].
  apply andb_true_iff in Hb as [Hn Hs].
  apply Z.eqb_eq in Hn. apply Nat.eqb_eq in Hs.
  exists f. rewrite Hn, Hs. repeat split. discriminate.
Qed.

(** C9, amended: the count a job reports, n_iter, is the number of calls of
    the update step in its last run less one (the burn-in call is not
    counted), the last run being the loop started on the seeded factors;
    with [n_iter >= 0] that run has made skip + n_iter * stride sweeps
    (negative options counting as 0).  The run ends where the
    stopping rule says so, never later than at the counter max_iter + 1, so
    n_iter is at most max_iter when max_iter is not negative, and -1
    otherwise; the bound of the modelled loop plays no part in it.  Reaching
    max_iter is no error: at a counter above max_iter the loop is left with
    the state reached. *)
Theorem C9_n_iter_counts_calls (e : env) (j : job) :
  (forall (g : rng e) (f : fit e),
     factorize e j g = Ok f ->
     (exists v g0 s0 o ls,
        let sd := seed_initialize e (job_V j) (job_rank j) (job_options j) g0 in
        let st0 := {| W := fst (fst sd); H := snd (fst sd); sigma := s0;
                      gen := snd sd; sweeps := 0 |} in
        objective e (_set_params j) st0 = Ok o
        /\ while_loop e (loop_fuel (_set_params j)) (_set_params j) v
             {| cur := st0; pobj := o; cobj := o; iter := 0 |} = Ok ls
        /\ fitted f = cur ls /\ final_obj f = cobj ls
        /\ n_iter f
           = Z.of_nat (update_calls e (loop_fuel (_set_params j))
                         (_set_params j) v
                         {| cur := st0; pobj := o; cobj := o; iter := 0 |})
             - 1)
     /\ -1 <= n_iter f
     /\ sweeps (fitted f) = sweeps_after (_set_params j) (n_iter f + 1)
     /\ (0 <= n_iter f ->
         sweeps (fitted f)
         = (Z.to_nat (skip (_set_params j))
            + Z.to_nat (n_iter f) * Z.to_nat (stride (_set_params j)))%nat)
     /\ (exists mi, max_iter (_set_params j) = Some mi /\ mi <> 0
                    /\ n_iter f <= Z.max (-1) mi
                    /\ (0 <= mi -> n_iter f <= mi)
                    /\ (mi < 0 -> n_iter f = -1))
     /\ (exists po,
           _is_satisfied (_set_params j) po (final_obj f) (n_iter f + 1)
           = false)
     /\ (forall v st o fuel,
           (loop_fuel (_set_params j) <= fuel)%nat ->
           while_loop e fuel (_set_params j) v
             {| cur := st; pobj := o; cobj := o; iter := 0 |}
           = while_loop e (loop_fuel (_set_params j)) (_set_params j) v
               {| cur := st; pobj := o; cobj := o; iter := 0 |}))
  /\ (forall mi fuel v ls,
        max_iter (_set_params j) = Some mi -> mi < iter ls ->
        while_loop e fuel (_set_params j) v ls = Ok ls).
Proof.
  destruct (_set_params_max_iter j) as (_ & mi & Hmi & Hz).
  split; [|intros mi' fuel v ls Hmi' Hlt;
           apply while_loop_stops; apply _is_satisfied_stop; left;
           exists mi'; repeat split; [exact Hmi' | congruence | lia]].
  intros g f Hf.
  apply factorize_last in Hf as (v & acc & ls & _ & Hone & Hfit & Hn & Hobj).
  apply one_run_loop in Hone as (o & ls' & Hseed & Hloop & Hlast).
  cbn [last] in Hlast. injection Hlast as ->.
  assert (Hsw : 0 <= iter ls'
                /\ sweeps (cur ls') = sweeps_after (_set_params j) (iter ls')).
  { refine (while_loop_sweeps e _ _ _ _ _ _ _ Hloop); cbn [iter cur sweeps];
      [lia | reflexivity]. }
  destruct Hsw as (Hpos & Hsw).
  assert (Hbound : iter ls' <= Z.max 0 (mi + 1)).
  { refine (while_loop_bound e _ _ mi _ _ _ Hmi Hz _ Hloop). cbn [iter]. lia. }
  pose proof (proj2 (while_loop_inv e (fun _ => True) _ _ _ _ _
                       (fun _ _ _ _ _ _ _ => I) I Hloop)) as Hstop.
  pose proof (while_loop_calls e _ _ _ _ _ Hloop) as Hcalls.
  cbn [iter] in Hcalls.
  split.
  { exists v, (carried_gen acc), (carried_sigma acc), o, ls'. cbn zeta.
    split; [exact Hseed|]. split; [exact Hloop|].
    repeat split; [exact Hfit | exact Hobj |]. rewrite Hn.
    apply (f_equal (fun z => z - 1)). rewrite Hcalls. reflexivity. }
  rewrite Hfit, Hn, Hobj.
  replace (iter ls' - 1 + 1) with (iter ls') by lia.
  split; [lia|]. split; [exact Hsw|]. split.
  { intros Hge. rewrite Hsw. unfold sweeps_after.
    destruct (Z.leb_spec (iter ls') 0); [lia | reflexivity]. }
  split.
  { exists mi. repeat split; auto; lia. }
  split.
  { exists (pobj ls'). exact Hstop. }
  intros v0 st o0 fuel Hfuel. unfold loop_fuel in *. rewrite Hmi in *.
  apply (while_loop_fuel e _ v0 mi); auto; cbn [iter]; lia.
Qed.

Lemma C9_n_iter_counts_calls_witness :
  exists f,
    factorize test_env job_frozen 0%nat = Ok f
    /\ sweeps (fitted f)
       = sweeps_after (_set_params job_frozen) (n_iter f + 1).
Proof.
  destruct (is_Ok_inv (factorize test_env job_frozen 0%nat)) as [f Hf];
    [vm_compute; reflexivity|].
  exists f. split; [exact Hf|].
  destruct (proj1 (C9_n_iter_counts_calls test_env job_frozen) 0%nat f Hf)
    as (_ & _ & Hsw & _).
  exact Hsw.
Defined.

(** ** The noise variance *)

(** C5: in a sweep with sigma not frozen, sigma is set once, between the pass
    over the columns of W and the computation of E, F and the pass over the
    rows of H: to the reciprocal of one Gamma draw of shape m*n/2 + 1 + k and
    scale 1/(theta + v + <W, W.C - 2D>/2), with the W left by the first pass
    and the C and D computed at the start of the sweep.  The passes over W
    and H leave sigma alone, and v, the halved sum of squares of V, is
    computed by the job before its runs. *)
Theorem C5_sigma_between_passes (e : env) (p : params) (v : float)
  (st st' : state e) :
  n_sigma p = false ->
  sweep e p v st = Ok st' ->
  exists C D st1 WC inner prod x g' E Fm st3,
    dot (H st) (Mat.T (H st)) = Ok C
    /\ dot (V p) (Mat.T (H st)) = Ok D
    /\ update_basis e p C D st = Ok st1
    /\ sigma st1 = sigma st
    /\ dot (W st1) C = Ok WC
    /\ Mat.zip_with F.sub WC (Mat.map (F.mul F.two) D) = Ok inner
    /\ multiply (W st1) inner = Ok prod
    /\ random_gamma e
         (F.add (F.add (F.div (F.of_Z (Z.of_nat (shape0 (V p) * shape1 (V p))))
                              F.two) F.one) (k p))
         (F.div F.one
                (F.add (F.add (theta p) v) (F.div (Mat.sum prod) F.two)))
         (gen st1) = Ok (x, g')
    /\ dot (Mat.T (W st1)) (W st1) = Ok E
    /\ dot (Mat.T (W st1)) (V p) = Ok Fm
    /\ update_mixture e p E Fm
         {| W := W st1; H := H st1; sigma := F.div F.one x; gen := g';
            sweeps := sweeps st1 |} = Ok st3
    /\ sigma st3 = F.div F.one x
    /\ sigma st' = F.div F.one x
    /\ W st' = W st1 /\ H st' = H st3
    /\ forall j g,
         factorize e j g
         = (v0 ← (VV ← multiply (job_V j) (job_V j);
                  Ok (F.div (Mat.sum VV) F.two));
            acc ← for_each (xrange (job_n_run j))
                    (fun _ => one_run e (_set_params j) v0)
                    {| last := None; carried_sigma := sigma_init (_set_params j);
                       carried_gen := g; callbacks := []; tracked := [] |};
            match last acc with
            | None => Raise UnboundLocalError
            | Some ls =>
                Ok {| fitted := cur ls; n_iter := iter ls - 1;
                      final_obj := cobj ls; fit_callbacks := callbacks acc;
                      fit_tracked := tracked acc |}
            end).
Proof.
  intros Hfree Hsw.
  apply sweep_passes in Hsw
    as (C & D & st1 & st2 & E & Fm & st3 & HC & HD & Hb & Hs & HE & HF & Hm
        & HW & HH & Hsig & _ & _).
  pose proof (update_basis_frame e _ _ _ _ _ Hb) as (_ & B2 & _).
  unfold update_sigma in Hs. rewrite Hfree in Hs.
  bind_inv Hs as scale Hscale. bind_inv Hs as [x g'] Hx.
  bind_inv Hs as s Hdiv. injection Hs as <-.
  cbn [W H sigma gen sweeps] in *.
  unfold sigma_scale in Hscale.
  bind_inv Hscale as WC HWC. bind_inv Hscale as inner Hinner.
  bind_inv Hscale as prod Hprod. injection Hscale as <-.
  assert (Hs : s = F.div F.one x).
  { unfold py_div in Hdiv. destruct x; try discriminate;
      injection Hdiv as <-; reflexivity. }
  subst s.
  pose proof (update_mixture_frame e _ _ _ _ _ Hm) as (M1 & M2 & _).
  cbn [W H sigma gen sweeps] in *.
  exists C, D, st1, WC, inner, prod, x, g', E, Fm, st3.
  repeat split; try assumption; try congruence.
Qed.

Lemma C5_sigma_between_passes_witness :
  exists st',
    sweep test_env (_set_params job_plain) F.zero state_ones = Ok st'
    /\ sigma st' = F.div F.one F.one.
Proof.
  destruct (sweep test_env (_set_params job_plain) F.zero state_ones)
    as [st'|err] eqn:Hsw.
  - exists st'. split; [reflexivity|].
    destruct (C5_sigma_between_passes test_env (_set_params job_plain) F.zero
                state_ones st' eq_refl Hsw)
      as (C & D & st1 & WC & inner & prod & x & g' & E & Fm & st3 & _ & _ & _
          & _ & _ & _ & _ & Hx & _ & _ & _ & _ & Hsig & _).
    cbn [test_env random_gamma] in Hx. injection Hx as <- _. exact Hsig.
  - exfalso. apply (is_Ok_Raise _ _ Hsw). vm_compute. reflexivity.
Defined.

(** ** Shapes of the supplied priors and masks *)

Section Masks.

Variable e : env.

Lemma update_basis_col_masks (p : params) (w h w' h' : list bool)
  (C D : matrix) (n : nat) (st : state e) :
  w !! n = w' !! n ->
  update_basis_col e (with_masks p w h) C D n st
  = update_basis_col e (with_masks p w' h') C D n st.
Proof.
  intros Hw. unfold update_basis_col, basis_mean, mask_at.
  cbn [with_masks n_w rank alpha]. rewrite Hw. reflexivity.
Qed.

Lemma update_mixture_row_masks (p : params) (w h w' h' : list bool)
  (E Fm : matrix) (n : nat) (st : state e) :
  h !! n = h' !! n ->
  update_mixture_row e (with_masks p w h) E Fm n st
  = update_mixture_row e (with_masks p w' h') E Fm n st.
Proof.
  intros Hh. unfold update_mixture_row, mixture_mean, mask_at.
  cbn [with_masks n_h rank beta]. rewrite Hh. reflexivity.
Qed.

(** A sweep reads the freeze masks at the indices below the rank only. *)
Lemma sweep_masks (p : params) (w h w' h' : list bool) (v : float)
  (st : state e) :
  (forall n, (n < rank p)%nat -> w !! n = w' !! n) ->
  (forall n, (n < rank p)%nat -> h !! n = h' !! n) ->
  sweep e (with_masks p w h) v st = sweep e (with_masks p w' h') v st.
Proof.
  intros Hw Hh. unfold sweep.
  destruct (dot (H st) (Mat.T (H st))) as [C|err]; [|reflexivity].
  cbn [mbind result_bind]. cbn [with_masks V].
  destruct (dot (V p) (Mat.T (H st))) as [D|err]; [|reflexivity].
  cbn [mbind result_bind].
  assert (Hb : update_basis e (with_masks p w h) C D st
               = update_basis e (with_masks p w' h') C D st).
  { unfold update_basis. cbn [with_masks rank]. apply for_each_ext.
    intros n t Hn. apply update_basis_col_masks, Hw.
    apply in_xrange in Hn. lia. }
  rewrite Hb.
  destruct (update_basis e (with_masks p w' h') C D st) as [st1|err];
    [|reflexivity].
  cbn [mbind result_bind].
  change (update_sigma e (with_masks p w h) v C D st1)
    with (update_sigma e (with_masks p w' h') v C D st1).
  destruct (update_sigma e (with_masks p w' h') v C D st1) as [st2|err];
    [|reflexivity].
  cbn [mbind result_bind].
  destruct (dot (Mat.T (W st2)) (W st2)) as [E|err]; [|reflexivity].
  cbn [mbind result_bind].
  destruct (dot (Mat.T (W st2)) (V p)) as [Fm|err]; [|reflexivity].
  cbn [mbind result_bind].
  assert (Hm : update_mixture e (with_masks p w h) E Fm st2
               = update_mixture e (with_masks p w' h') E Fm st2).
  { unfold update_mixture. cbn [with_masks rank]. apply for_each_ext.
    intros n t Hn. apply update_mixture_row_masks, Hh.
    apply in_xrange in Hn. lia. }
  rewrite Hm. reflexivity.
Qed.

End Masks.

(** C3, the claim as it stands, fails: a prior alpha with three columns and
    a mask n_w with three entries at rank 2 are not reported; the job runs
    and returns a fit. *)
Lemma C3_counterexample :
  well_shaped job_misshaped = false
  /\ exists f, factorize test_env job_misshaped 0%nat = Ok f.
Proof.
  split; [reflexivity|]. apply is_Ok_inv. vm_compute. reflexivity.
Qed.

(** C3, amended: the parameter setup checks no shape; supplied alpha, beta,
    n_w and n_h become the attributes as they are.  A sweep reads the freeze
    masks at the indices below the rank only, so that entries of a mask past
    the rank are ignored. *)
Theorem C3_shapes_unchecked (e : env) (j : job) :
  (forall a, opt_alpha (job_options j) = Some a -> alpha (_set_params j) = a)
  /\ (forall b, opt_beta (job_options j) = Some b -> beta (_set_params j) = b)
  /\ (forall w, opt_n_w (job_options j) = Some w -> n_w (_set_params j) = w)
  /\ (forall h, opt_n_h (job_options j) = Some h -> n_h (_set_params j) = h)
  /\ (forall (p : params) (w h extra_w extra_h : list bool) (v : float)
             (st : state e),
        (rank p <= length w)%nat -> (rank p <= length h)%nat ->
        sweep e (with_masks p (w ++ extra_w) (h ++ extra_h)) v st
        = sweep e (with_masks p w h) v st).
Proof.
  split; [|split; [|split; [|split]]].
  - intros a Ha. cbn [_set_params alpha]. rewrite Ha. reflexivity.
  - intros b Hb. cbn [_set_params beta]. rewrite Hb. reflexivity.
  - intros w Hw. cbn [_set_params n_w]. rewrite Hw. reflexivity.
  - intros h Hh. cbn [_set_params n_h]. rewrite Hh. reflexivity.
  - intros p w h extra_w extra_h v st Hw Hh. apply sweep_masks.
    + intros n Hn. apply lookup_app_l. lia.
    + intros n Hn. apply lookup_app_l. lia.
Qed.

Lemma C3_shapes_unchecked_witness :
  alpha (_set_params job_misshaped) = Mat.zeros 2 3
  /\ n_w (_set_params job_misshaped) = [false; false; true]
  /\ sweep test_env
       (with_masks (_set_params job_misshaped)
                   ([false; false] ++ [true]) ([true; true] ++ []))
       F.zero state_ones
     = sweep test_env
         (with_masks (_set_params job_misshaped) [false; false] [true; true])
         F.zero state_ones.
Proof.
  destruct (C3_shapes_unchecked test_env job_misshaped)
    as (Ha & _ & Hw & _ & Hsweep).
  split; [|split].
  - apply Ha. reflexivity.
  - apply Hw. reflexivity.
  - apply Hsweep; cbn; lia.
Defined.

(** * Further properties *)

(** ** Sweeps that return *)

Lemma for_each_total {A S : Type} (P : S -> Prop) (body : A -> S -> result S)
  (xs : list A) (s : S) :
  (forall x t, In x xs -> P t -> exists t', body x t = Ok t' /\ P t') ->
  P s -> exists s', for_each xs body s = Ok s' /\ P s'.
Proof.
  revert s. induction xs as [|x xs IH]; intros s Hstep Hs; simpl.
  - exists s. auto.
  - destruct (Hstep x s (or_introl eq_refl) Hs) as (t & Ht & HP).
    rewrite Ht. cbn [mbind result_bind]. apply IH; [|exact HP].
    intros y t' Hy. apply Hstep. right. exact Hy.
Qed.

Lemma repeat_step_total {S : Type} (P : S -> Prop) (step : S -> result S)
  (n : nat) (s : S) :
  (forall t, P t -> exists t', step t = Ok t' /\ P t') ->
  P s -> exists s', repeat_step n step s = Ok s' /\ P s'.
Proof.
  intros Hstep. revert s. induction n as [|n IH]; intros s Hs; simpl.
  - exists s. auto.
  - destruct (Hstep s Hs) as (t & Ht & HP). rewrite Ht.
    cbn [mbind result_bind]. apply IH, HP.
Qed.

Lemma nn_of_below (n rank c : nat) :
  (n < rank)%nat -> In c (nn_of n rank) -> (c < rank)%nat.
Proof.
  intros Hn Hc. unfold nn_of, xrange, xrange2 in Hc.
  apply in_app_or in Hc as [Hc|Hc]; apply in_seq in Hc; lia.
Qed.

Lemma forallb_below (nn : list nat) (b : nat) :
  (forall c, In c nn -> (c < b)%nat) ->
  forallb (fun c => (c <? b)%nat) nn = true.
Proof.
  intros Hall. apply forallb_forall. intros c Hc. apply Nat.ltb_lt, Hall, Hc.
Qed.

Lemma get_total (v : vec) (j : nat) :
  (j < length v)%nat -> exists x, Vec.get v j = Ok x.
Proof.
  intros Hj. unfold Vec.get.
  destruct (lookup_lt_is_Some_2 v j Hj) as [x Hx]. exists x.
  unfold vec in *. rewrite Hx. reflexivity.
Qed.

Lemma set_total (A : matrix) (i j : nat) (x : float) :
  (i < shape0 A)%nat -> (j < shape1 A)%nat ->
  exists A', Mat.set A i j x = Ok A'
             /\ shape0 A' = shape0 A /\ shape1 A' = shape1 A.
Proof.
  intros Hi Hj. unfold Mat.set, Mat.in_shape.
  rewrite (proj2 (Nat.ltb_lt _ _) Hi), (proj2 (Nat.ltb_lt _ _) Hj).
  cbn [andb]. eexists. split; [reflexivity|]. auto.
Qed.

Lemma write_col_total (A : matrix) (n : nat) (temp : vec) :
  length temp = shape0 A -> (n < shape1 A)%nat ->
  exists A', write_col A n temp = Ok A'
             /\ shape0 A' = shape0 A /\ shape1 A' = shape1 A.
Proof.
  intros Hlen Hn. unfold write_col.
  apply (for_each_total
           (fun B => shape0 B = shape0 A /\ shape1 B = shape1 A)); [|auto].
  intros j B Hj [H0 H1]. apply in_xrange in Hj.
  destruct (get_total temp j) as (x & ->); [lia|]. cbn [mbind result_bind].
  destruct (set_total B j n x) as (B' & -> & H0' & H1'); [lia | lia |].
  exists B'. split; [reflexivity|]. split; congruence.
Qed.

Lemma write_row_total (A : matrix) (n : nat) (temp : vec) :
  length temp = shape1 A -> (n < shape0 A)%nat ->
  exists A', write_row A n temp = Ok A'
             /\ shape0 A' = shape0 A /\ shape1 A' = shape1 A.
Proof.
  intros Hlen Hn. unfold write_row.
  apply (for_each_total
           (fun B => shape0 B = shape0 A /\ shape1 B = shape1 A)); [|auto].
  intros j B Hj [H0 H1]. apply in_xrange in Hj.
  destruct (get_total temp j) as (x & ->); [lia|]. cbn [mbind result_bind].
  destruct (set_total B n j x) as (B' & -> & H0' & H1'); [lia | lia |].
  exists B'. split; [reflexivity|]. split; congruence.
Qed.

Lemma zip_with_total (f : float -> float -> float) (u v : vec) :
  length u = length v ->
  exists r, Vec.zip_with f u v = Ok r /\ length r = length u.
Proof.
  revert v. induction u as [|x u IH]; intros [|y v] Hlen; simpl in *;
    try discriminate.
  - exists []. auto.
  - destruct (IH v) as (r & -> & Hr); [lia|]. cbn [mbind result_bind].
    eexists. split; [reflexivity|]. simpl. lia.
Qed.

Ltac ltb_true :=
  match goal with
  | |- context [(?a <? ?b)%nat] =>
      rewrite (proj2 (Nat.ltb_lt a b)) by (cbn [shape0 shape1]; lia)
  end.

Ltac eqb_true :=
  match goal with
  | |- context [(?a =? ?b)%nat] =>
      rewrite (proj2 (Nat.eqb_eq a b))
        by (cbn [shape0 shape1]; rewrite ?length_map, ?length_seq; lia)
  end.

Section Returns.

Variable e : env.
Hypothesis Hbenign : benign e.

Lemma _randr_total (m : vec) (s : float) (l : vec) (g : rng e) :
  length l = length m ->
  exists x g', _randr e m s l g = Ok (x, g') /\ length x = length m.
Proof.
  intros Hlen. destruct (proj1 Hbenign (F.mul F.two s)) as (r & Hr).
  unfold _randr. rewrite (_randr_draw_entrywise e m r s l g Hlen Hr).
  cbn [mbind result_bind]. eexists. eexists. split; [reflexivity|].
  unfold zero_inf, zero_negative, zero_nan.
  rewrite !length_map, zip3_length; auto using rand_length.
Qed.

Lemma basis_mean_total (p : params) (C D : matrix) (n : nat) (st : state e) :
  shaped p st ->
  shape0 C = rank p -> shape1 C = rank p ->
  shape0 D = shape0 (V p) -> shape1 D = rank p ->
  (n < rank p)%nat ->
  exists m, basis_mean e p C D n st = Ok m /\ length m = shape0 (V p).
Proof.
  intros (HW0 & HW1 & _) HC0 HC1 HD0 HD1 Hn.
  assert (Hnn : forall b, b = rank p ->
                  forallb (fun c => (c <? b)%nat) (nn_of n (rank p)) = true).
  { intros b ->. apply forallb_below. intros c. apply nn_of_below, Hn. }
  unfold basis_mean, Mat.col, Mat.cols, Mat.rows_col, Mat.rows, Mat.col,
    dot_mv, Mat.get, Mat.in_shape.
  rewrite (Hnn _ HW1), (Hnn _ HC0).
  repeat (cbn [mbind result_bind shape0 shape1 andb];
          try ltb_true; try eqb_true).
  match goal with
  | |- context [Vec.zip_with ?f ?u ?v] =>
      destruct (zip_with_total f u v) as (diff & -> & Hdiff);
        [rewrite !length_map, !length_seq; cbn [shape0]; lia|]
  end.
  cbn [mbind result_bind].
  eexists. split; [reflexivity|].
  unfold sop. rewrite length_map, Hdiff, length_map, length_seq. exact HD0.
Qed.

Lemma mixture_mean_total (p : params) (E Fm : matrix) (n : nat)
  (st : state e) :
  shaped p st ->
  shape0 E = rank p -> shape1 E = rank p ->
  shape0 Fm = rank p -> shape1 Fm = shape1 (V p) ->
  (n < rank p)%nat ->
  exists m, mixture_mean e p E Fm n st = Ok m /\ length m = shape1 (V p).
Proof.
  intros (_ & _ & HH0 & HH1 & _) HE0 HE1 HF0 HF1 Hn.
  assert (Hnn : forall b, b = rank p ->
                  forallb (fun c => (c <? b)%nat) (nn_of n (rank p)) = true).
  { intros b ->. apply forallb_below. intros c. apply nn_of_below, Hn. }
  unfold mixture_mean, Mat.row, Mat.row_cols, Mat.cols, Mat.rows, Mat.row,
    dot_vm, Mat.get, Mat.in_shape.
  rewrite (Hnn _ HE1), (Hnn _ HH0).
  repeat (cbn [mbind result_bind shape0 shape1 andb];
          try ltb_true; try eqb_true).
  match goal with
  | |- context [Vec.zip_with ?f ?u ?v] =>
      destruct (zip_with_total f u v) as (diff & -> & Hdiff);
        [rewrite !length_map, !length_seq; cbn [shape1]; lia|]
  end.
  cbn [mbind result_bind].
  eexists. split; [reflexivity|].
  unfold sop. rewrite length_map, Hdiff, length_map, length_seq. exact HF1.
Qed.

Lemma mask_at_total (mask : list bool) (n : nat) :
  (n < length mask)%nat -> exists b, mask_at mask n = Ok b.
Proof.
  intros Hn. unfold mask_at.
  destruct (lookup_lt_is_Some_2 mask n Hn) as [b ->]. exists b. reflexivity.
Qed.

Lemma update_basis_col_total (p : params) (C D : matrix) (n : nat)
  (st : state e) :
  shaped p st ->
  shape0 C = rank p -> shape1 C = rank p ->
  shape0 D = shape0 (V p) -> shape1 D = rank p ->
  (n < rank p)%nat ->
  exists st', update_basis_col e p C D n st = Ok st' /\ shaped p st'.
Proof.
  intros Hsh HC0 HC1 HD0 HD1 Hn.
  pose proof Hsh as (HW0 & HW1 & HH0 & HH1 & Ha0 & Ha1 & Hb0 & Hb1 & Hw & Hh).
  unfold update_basis_col.
  destruct (mask_at_total (n_w p) n) as ([|] & ->); [lia | |];
    cbn [mbind result_bind].
  - exists st. auto.
  - destruct (basis_mean_total p C D n st Hsh HC0 HC1 HD0 HD1 Hn)
      as (m & -> & Hm).
    cbn [mbind result_bind]. unfold Mat.get, Mat.in_shape, Mat.col.
    repeat (cbn [mbind result_bind andb]; try ltb_true).
    match goal with
    | |- context [_randr e m ?s ?l (gen st)] =>
        destruct (_randr_total m s l (gen st)) as (x & g' & -> & Hx);
          [rewrite length_map, length_seq; lia|]
    end.
    cbn [mbind result_bind].
    destruct (write_col_total (W st) n x) as (W' & -> & HW0' & HW1');
      [lia | lia |].
    cbn [mbind result_bind]. eexists. split; [reflexivity|].
    unfold shaped. cbn [W H]. repeat split; congruence || assumption.
Qed.

Lemma update_mixture_row_total (p : params) (E Fm : matrix) (n : nat)
  (st : state e) :
  shaped p st ->
  shape0 E = rank p -> shape1 E = rank p ->
  shape0 Fm = rank p -> shape1 Fm = shape1 (V p) ->
  (n < rank p)%nat ->
  rows_drawable p ->
  exists st', update_mixture_row e p E Fm n st = Ok st' /\ shaped p st'.
Proof.
  intros Hsh HE0 HE1 HF0 HF1 Hn Hrows.
  pose proof Hsh as (HW0 & HW1 & HH0 & HH1 & Ha0 & Ha1 & Hb0 & Hb1 & Hw & Hh).
  unfold update_mixture_row.
  destruct (mask_at_total (n_h p) n) as ([|] & Hmask); [lia | |];
    rewrite Hmask; cbn [mbind result_bind].
  - exists st. auto.
  - destruct Hrows as [Hone|Hfrozen];
      [|apply mask_at_some in Hmask; rewrite (Hfrozen n Hn) in Hmask;
        discriminate].
    destruct (mixture_mean_total p E Fm n st Hsh HE0 HE1 HF0 HF1 Hn)
      as (m & -> & Hm).
    cbn [mbind result_bind]. unfold Mat.get, Mat.in_shape, Mat.row.
    repeat (cbn [mbind result_bind andb]; try ltb_true).
    unfold _randr_transposed.
    match goal with
    | |- context [sqrt e ?x] => destruct (proj1 Hbenign x) as (q & ->)
    end.
    cbn [mbind result_bind].
    rewrite length_map, length_seq, Hb1, Hm, Hone. cbn [Nat.eqb andb].
    match goal with
    | |- context [_randr e m ?s ?l (gen st)] =>
        destruct (_randr_total m s l (gen st)) as (x & g' & -> & Hx);
          [rewrite length_map, length_seq; lia|]
    end.
    cbn [mbind result_bind].
    destruct (write_row_total (H st) n x) as (H' & -> & HH0' & HH1');
      [lia | lia |].
    cbn [mbind result_bind]. eexists. split; [reflexivity|].
    unfold shaped. cbn [W H]. repeat split; congruence || assumption.
Qed.

Lemma dot_total (A B : matrix) :
  shape1 A = shape0 B ->
  exists M, dot A B = Ok M /\ shape0 M = shape0 A /\ shape1 M = shape1 B.
Proof.
  intros Hs. unfold dot. eqb_true. eexists. split; [reflexivity|]. auto.
Qed.

Lemma update_sigma_total (p : params) (v : float) (C D : matrix)
  (st : state e) :
  shaped p st ->
  shape0 C = rank p -> shape1 C = rank p ->
  shape0 D = shape0 (V p) -> shape1 D = rank p ->
  exists st', update_sigma e p v C D st = Ok st' /\ shaped p st'.
Proof.
  intros Hsh HC0 HC1 HD0 HD1.
  pose proof Hsh as (HW0 & HW1 & _).
  unfold update_sigma. destruct (n_sigma p); [exists st; auto|].
  unfold sigma_scale, dot, multiply, Mat.zip_with, Mat.map.
  repeat (cbn [mbind result_bind shape0 shape1 andb]; try eqb_true).
  match goal with
  | |- context [random_gamma e ?a ?b ?g] =>
      destruct (proj2 Hbenign a b g) as (x & g' & -> & Hx)
  end.
  cbn [mbind result_bind]. unfold py_div.
  destruct x; try discriminate; cbn [mbind result_bind];
    eexists; (split; [reflexivity|]); exact Hsh.
Qed.

(** A sweep on fitting shapes, with a pass over the rows of H that can go
    through, returns, and the shapes still fit. *)
Lemma sweep_total (p : params) (v : float) (st : state e) :
  rows_drawable p ->
  shaped p st -> exists st', sweep e p v st = Ok st' /\ shaped p st'.
Proof.
  intros Hrows Hsh.
  pose proof Hsh as (HW0 & HW1 & HH0 & HH1 & _).
  unfold sweep.
  destruct (dot_total (H st) (Mat.T (H st))) as (C & -> & HC0 & HC1);
    [reflexivity|].
  cbn [mbind result_bind].
  destruct (dot_total (V p) (Mat.T (H st))) as (D & -> & HD0 & HD1);
    [cbn [Mat.T shape0]; lia|].
  cbn [mbind result_bind]. cbn [Mat.T shape1] in HC1, HD1.
  destruct (for_each_total (shaped p) (update_basis_col e p C D)
              (xrange (Z.of_nat (rank p))) st) as (st1 & Hb & Hsh1);
    [|exact Hsh|].
  { intros n t Hn Ht. apply in_xrange in Hn.
    apply update_basis_col_total; auto; lia. }
  unfold update_basis. rewrite Hb. cbn [mbind result_bind].
  destruct (update_sigma_total p v C D st1) as (st2 & -> & Hsh2);
    auto; try lia.
  cbn [mbind result_bind].
  pose proof Hsh2 as (H2W0 & H2W1 & _).
  destruct (dot_total (Mat.T (W st2)) (W st2)) as (E & -> & HE0 & HE1);
    [reflexivity|].
  cbn [mbind result_bind].
  destruct (dot_total (Mat.T (W st2)) (V p)) as (Fm & -> & HF0 & HF1);
    [cbn [Mat.T shape1]; lia|].
  cbn [mbind result_bind]. cbn [Mat.T shape0] in HE0, HF0.
  destruct (for_each_total (shaped p) (update_mixture_row e p E Fm)
              (xrange (Z.of_nat (rank p))) st2) as (st3 & Hm & Hsh3);
    [|exact Hsh2|].
  { intros n t Hn Ht. apply in_xrange in Hn.
    apply update_mixture_row_total; auto; lia. }
  unfold update_mixture. rewrite Hm. cbn [mbind result_bind].
  eexists. split; [reflexivity|]. exact Hsh3.
Qed.

(** So does a call of the update step. *)
Lemma update_total (p : params) (v : float) (it : Z) (st : state e) :
  rows_drawable p ->
  shaped p st -> exists st', update e p v it st = Ok st' /\ shaped p st'.
Proof.
  intros Hrows Hsh. unfold update. apply repeat_step_total; [|exact Hsh].
  intros t Ht. apply sweep_total; assumption.
Qed.

End Returns.

Section RunReturns.

Variable e : env.
Hypothesis Hbenign : benign e.
Hypothesis Hseeds : seeds_shaped e.

Lemma objective_total (p : params) (st : state e) :
  shaped p st -> exists o, objective e p st = Ok o.
Proof.
  intros (HW0 & HW1 & HH0 & HH1 & _). unfold objective.
  destruct (dot_total (W st) (H st)) as (WH & -> & H0 & H1); [lia|].
  cbn [mbind result_bind]. unfold Mat.zip_with.
  repeat (cbn [mbind result_bind andb]; try eqb_true).
  eexists. reflexivity.
Qed.

(** With max_iter configured, such a loop returns. *)
Lemma while_loop_total (p : params) (v : float) (mi : Z) (fuel : nat)
  (ls : loop_state e) :
  max_iter p = Some mi -> mi <> 0 ->
  rows_drawable p ->
  shaped p (cur ls) ->
  (Z.to_nat (mi + 1 - iter ls) < fuel)%nat ->
  exists ls', while_loop e fuel p v ls = Ok ls'.
Proof.
  intros Hmax Hz Hrows. revert ls.
  induction fuel as [|fuel IH]; intros ls Hsh Hfuel; [lia|]. simpl.
  destruct (_is_satisfied p (pobj ls) (cobj ls) (iter ls)) eqn:Hsat;
    [|exists ls; reflexivity].
  assert (Hle : iter ls <= mi).
  { destruct (Z.le_gt_cases (iter ls) mi) as [Hle|Hgt]; [exact Hle|].
    exfalso. assert (Hstop : _is_satisfied p (pobj ls) (cobj ls) (iter ls)
                             = false).
    { apply _is_satisfied_stop. left. exists mi. repeat split; auto; lia. }
    congruence. }
  destruct (update_total e Hbenign p v (iter ls) (cur ls) Hrows Hsh)
    as (st' & -> & Hsh').
  cbn [mbind result_bind].
  assert (Hc : exists c, (if recompute p (iter ls) then objective e p st'
                          else Ok (cobj ls)) = Ok c).
  { destruct (recompute p (iter ls)); [apply objective_total, Hsh'|].
    exists (cobj ls). reflexivity. }
  destruct Hc as (c & ->). cbn [mbind result_bind].
  apply IH; cbn [cur iter]; [exact Hsh' | lia].
Qed.

Lemma _set_params_shaped (j : job) (st : state e) :
  well_shaped j = true ->
  shape0 (W st) = shape0 (job_V j) -> shape1 (W st) = job_rank j ->
  shape0 (H st) = job_rank j -> shape1 (H st) = shape1 (job_V j) ->
  shaped (_set_params j) st.
Proof.
  intros Hws HW0 HW1 HH0 HH1. unfold well_shaped in Hws.
  apply andb_true_iff in Hws as [Hws Hh].
  apply andb_true_iff in Hws as [Hws Hw].
  apply andb_true_iff in Hws as [Ha Hb].
  unfold shaped.
  cbn [_set_params V rank alpha beta n_w n_h].
  unfold shape_is, length_is in *.
  destruct (opt_alpha (job_options j)) as [a|];
    destruct (opt_beta (job_options j)) as [b|];
    destruct (opt_n_w (job_options j)) as [w|];
    destruct (opt_n_h (job_options j)) as [h|];
    cbn [get_default Mat.zeros shape0 shape1];
    rewrite ?repeat_length;
    repeat match goal with
           | Hx : (_ && _) = true |- _ => apply andb_true_iff in Hx as [? ?]
           | Hx : (_ =? _)%nat = true |- _ => apply Nat.eqb_eq in Hx
           end;
    repeat split; lia.
Qed.

Lemma one_run_total (j : job) (v : float) (acc : runs e) :
  well_shaped j = true ->
  rows_drawable (_set_params j) ->
  exists acc' ls, one_run e (_set_params j) v acc = Ok acc'
                  /\ last acc' = Some ls.
Proof.
  intros Hws Hrows. unfold one_run.
  pose proof (Hseeds (V (_set_params j)) (rank (_set_params j))
                (opts (_set_params j)) (carried_gen acc)) as Hs.
  destruct (seed_initialize e (V (_set_params j)) (rank (_set_params j))
              (opts (_set_params j)) (carried_gen acc)) as [[W0 H0] g1].
  cbn [fst snd] in Hs. destruct Hs as (S1 & S2 & S3 & S4).
  set (st0 := {| W := W0; H := H0; sigma := carried_sigma acc; gen := g1;
                 sweeps := 0 |}).
  assert (Hsh : shaped (_set_params j) st0)
    by (apply _set_params_shaped; assumption).
  destruct (objective_total _ _ Hsh) as (o & ->). cbn [mbind result_bind].
  destruct (_set_params_max_iter j) as (_ & mi & Hmi & Hz).
  destruct (while_loop_total (_set_params j) v mi
              (loop_fuel (_set_params j))
              {| cur := st0; pobj := o; cobj := o; iter := 0 |} Hmi Hz Hrows
              Hsh)
    as (ls & ->).
  { unfold loop_fuel. rewrite Hmi. cbn [iter]. lia. }
  cbn [mbind result_bind]. eexists. exists ls. split; reflexivity.
Qed.

(** A job on fitting shapes with at least one run returns a fit, when the
    pass over the rows of H can go through. *)
Lemma factorize_total (j : job) (g : rng e) :
  well_shaped j = true -> 0 < job_n_run j ->
  rows_drawable (_set_params j) ->
  exists f, factorize e j g = Ok f.
Proof.
  intros Hws Hrun Hrows. unfold factorize, job_v, multiply, Mat.zip_with.
  rewrite !Nat.eqb_refl. cbn [andb mbind result_bind].
  set (v := F.div _ _).
  cbn [_set_params n_run]. unfold xrange.
  destruct (Z.to_nat (job_n_run j)) as [|n] eqn:Hn; [lia|].
  cbn [seq for_each].
  match goal with
  | |- context [one_run e (_set_params j) v ?a] =>
      destruct (one_run_total j v a Hws Hrows) as (acc1 & ls1 & -> & Hlast1)
  end.
  cbn [mbind result_bind].
  destruct (for_each_total (fun a => exists ls, last a = Some ls)
              (fun _ => one_run e (_set_params j) v) (seq 1 n) acc1)
    as (acc' & -> & ls & Hlast).
  - intros x t _ _.
    destruct (one_run_total j v t Hws Hrows) as (t' & ls & Ht & Hl).
    exists t'. split; [exact Ht | exists ls; exact Hl].
  - exists ls1. exact Hlast1.
  - cbn [mbind result_bind]. rewrite Hlast. eexists. reflexivity.
Qed.

End RunReturns.

Lemma test_env_benign : benign test_env.
Proof.
  split.
  - intros x. eexists. reflexivity.
  - intros a b g. exists F.one, (S g). split; reflexivity.
Qed.

Lemma test_env_seeds_shaped : seeds_shaped test_env.
Proof. intros Vm r o g. repeat split. Qed.



(** ** Sweeps that raise *)

(** A loop in which every pass either goes on or raises [err], and one pass
    is bound to raise it, raises it. *)
Lemma for_each_raises {A S : Type} (P : S -> Prop) (body : A -> S -> result S)
  (err : exn) (xs : list A) (s : S) :
  (forall x t, In x xs -> P t ->
     (exists t', body x t = Ok t' /\ P t') \/ body x t = Raise err) ->
  (exists x, In x xs /\ forall t, P t -> body x t = Raise err) ->
  P s -> for_each xs body s = Raise err.
Proof.
  revert s. induction xs as [|x xs IH]; intros s Hstep (y & Hy & Hraise) Hs.
  - destruct Hy.
  - cbn [for_each].
    destruct (Hstep x s (or_introl eq_refl) Hs) as [(t & Ht & HP)|Hr];
      [|rewrite Hr; reflexivity].
    rewrite Ht. cbn [mbind result_bind]. apply IH; [| |exact HP].
    + intros z t' Hz. apply Hstep. right. exact Hz.
    + destruct Hy as [->|Hy]; [|exists y; auto].
      rewrite (Hraise s Hs) in Ht. discriminate Ht.
Qed.

Section Raises.

Variable e : env.
Hypothesis Hbenign : benign e.

(** The step for a free row of H, on a target that has not one column. *)
Lemma update_mixture_row_raises (p : params) (E Fm : matrix) (n : nat)
  (st : state e) :
  shaped p st ->
  shape0 E = rank p -> shape1 E = rank p ->
  shape0 Fm = rank p -> shape1 Fm = shape1 (V p) ->
  (n < rank p)%nat ->
  shape1 (V p) <> 1%nat -> n_h p !! n = Some false ->
  update_mixture_row e p E Fm n st = Raise IndexError.
Proof.
  intros Hsh HE0 HE1 HF0 HF1 Hn Hwide Hfree.
  pose proof Hsh as (HW0 & HW1 & HH0 & HH1 & Ha0 & Ha1 & Hb0 & Hb1 & Hw & Hh).
  unfold update_mixture_row, mask_at. rewrite Hfree. cbn [mbind result_bind].
  destruct (mixture_mean_total e p E Fm n st Hsh HE0 HE1 HF0 HF1 Hn)
    as (m & -> & Hm).
  cbn [mbind result_bind]. unfold Mat.get, Mat.in_shape, Mat.row.
  repeat (cbn [mbind result_bind andb]; try ltb_true).
  unfold _randr_transposed.
  match goal with
  | |- context [sqrt e ?x] => destruct (proj1 Hbenign x) as (q & ->)
  end.
  cbn [mbind result_bind].
  rewrite length_map, length_seq, Hb1, Hm.
  destruct (Nat.eqb_spec (shape1 (V p)) 1) as [Hone|_]; [contradiction|].
  reflexivity.
Qed.

(** A sweep on fitting shapes raises IndexError in its pass over the rows
    of H when the target has not one column and a row of H is free. *)
Lemma sweep_raises (p : params) (v : float) (st : state e) (n : nat) :
  shaped p st ->
  shape1 (V p) <> 1%nat -> (n < rank p)%nat -> n_h p !! n = Some false ->
  sweep e p v st = Raise IndexError.
Proof.
  intros Hsh Hwide Hn Hfree.
  pose proof Hsh as (HW0 & HW1 & HH0 & HH1 & _).
  unfold sweep.
  destruct (dot_total (H st) (Mat.T (H st))) as (C & -> & HC0 & HC1);
    [reflexivity|].
  cbn [mbind result_bind].
  destruct (dot_total (V p) (Mat.T (H st))) as (D & -> & HD0 & HD1);
    [cbn [Mat.T shape0]; lia|].
  cbn [mbind result_bind]. cbn [Mat.T shape1] in HC1, HD1.
  destruct (for_each_total (shaped p) (update_basis_col e p C D)
              (xrange (Z.of_nat (rank p))) st) as (st1 & Hb & Hsh1);
    [|exact Hsh|].
  { intros c t Hc Ht. apply in_xrange in Hc.
    apply update_basis_col_total; auto; lia. }
  unfold update_basis. rewrite Hb. cbn [mbind result_bind].
  destruct (update_sigma_total e Hbenign p v C D st1) as (st2 & -> & Hsh2);
    auto; try lia.
  cbn [mbind result_bind].
  pose proof Hsh2 as (H2W0 & H2W1 & _ & _ & _ & _ & _ & _ & _ & Hmask).
  destruct (dot_total (Mat.T (W st2)) (W st2)) as (E & -> & HE0 & HE1);
    [reflexivity|].
  cbn [mbind result_bind].
  destruct (dot_total (Mat.T (W st2)) (V p)) as (Fm & -> & HF0 & HF1);
    [cbn [Mat.T shape1]; lia|].
  cbn [mbind result_bind]. cbn [Mat.T shape0] in HE0, HF0.
  unfold update_mixture.
  rewrite (for_each_raises (fun t => t = st2) (update_mixture_row e p E Fm)
             IndexError (xrange (Z.of_nat (rank p))) st2);
    [reflexivity | | | reflexivity].
  - intros r t Hr ->. apply in_xrange in Hr.
    destruct (lookup_lt_is_Some_2 (n_h p) r) as [[|] Hmr]; [lia | |].
    + left. exists st2. split; [|reflexivity].
      unfold update_mixture_row, mask_at. rewrite Hmr. reflexivity.
    + right. apply update_mixture_row_raises; auto; lia.
  - exists n. split; [apply in_xrange; lia|].
    intros t ->. apply update_mixture_row_raises; auto; lia.
Qed.

(** So does a call of the update step that makes a sweep. *)
Lemma update_raises (p : params) (v : float) (it : Z) (st : state e)
  (n : nat) :
  shaped p st ->
  shape1 (V p) <> 1%nat -> (n < rank p)%nat -> n_h p !! n = Some false ->
  (0 < n_sweeps p it)%nat ->
  update e p v it st = Raise IndexError.
Proof.
  intros Hsh Hwide Hn Hfree Hsw. unfold update.
  destruct (n_sweeps p it) as [|k]; [lia|]. cbn [repeat_step].
  rewrite (sweep_raises p v st n Hsh Hwide Hn Hfree). reflexivity.
Qed.

End Raises.

(** ** The objective is never negative *)

Lemma round_aux_sign (sx : bool) (mx ex : Z) (lx : location) :
  sign_clear (binary_round_aux F.prec F.emax sx mx ex lx) = negb sx
  \/ binary_round_aux F.prec F.emax sx mx ex lx = S754_nan.
Proof.
  unfold binary_round_aux.
  destruct (shr_fexp F.prec F.emax mx ex lx) as [mrs' e'].
  destruct (shr_fexp F.prec F.emax _ e' loc_Exact) as [mrs'' e''].
  destruct (shr_m mrs'') as [|m|m]; [left; reflexivity | | right; reflexivity].
  destruct (e'' <=? F.emax - F.prec); left; reflexivity.
Qed.

Lemma round_sign (sx : bool) (mx : positive) (ex : Z) :
  sign_clear (binary_round F.prec F.emax sx mx ex) = negb sx
  \/ binary_round F.prec F.emax sx mx ex = S754_nan.
Proof.
  unfold binary_round. destruct (shl_align mx ex _) as [mz ez].
  apply round_aux_sign.
Qed.

Lemma sign_clear_cases (x : float) :
  sign_clear x = true -> F.ltb x F.zero = false.
Proof.
  destruct x as [sg|sg| |sg m ex]; try destruct sg; intros Hs;
    try discriminate Hs; reflexivity.
Qed.

Lemma mul_self_sign (x : float) : sign_clear (F.mul x x) = true.
Proof.
  destruct x as [sg|sg| |sg m ex]; try destruct sg; try reflexivity;
    unfold F.mul, SFmul; cbn [xorb];
    (destruct (round_aux_sign false (Z.pos (m * m)) (ex + ex) loc_Exact)
      as [Hs|Hs]; [exact Hs | rewrite Hs; reflexivity]).
Qed.

Lemma add_sign (x y : float) :
  sign_clear x = true -> sign_clear y = true -> sign_clear (F.add x y) = true.
Proof.
  destruct x as [sx|sx| |sx mx ex]; destruct y as [sy|sy| |sy my ey];
    try destruct sx; try destruct sy; try discriminate; try reflexivity.
  intros _ _. unfold F.add, SFadd. cbn [cond_Zopp].
  destruct (shl_align mx ex (Z.min ex ey)) as [m1 e1].
  destruct (shl_align my ey (Z.min ex ey)) as [m2 e2].
  cbn [fst]. change (Z.pos m1 + Z.pos m2) with (Z.pos (m1 + m2)).
  cbn [binary_normalize].
  destruct (round_sign false (m1 + m2) (Z.min ex ey)) as [Hs|Hs];
    [exact Hs | rewrite Hs; reflexivity].
Qed.

Lemma sum_sign (v : vec) :
  Forall (fun x => sign_clear x = true) v -> sign_clear (Vec.sum v) = true.
Proof.
  unfold Vec.sum. generalize F.zero (eq_refl : sign_clear F.zero = true).
  induction v as [|x v IH]; intros acc Hacc Hall; simpl; [exact Hacc|].
  apply IH.
  - apply add_sign; [exact Hacc|]. apply (List.Forall_inv Hall).
  - apply (List.Forall_inv_tail Hall).
Qed.

(** X1: the squared-error objective, whatever the factors and the target,
    is never below zero (it may be NaN or infinite). *)
Theorem objective_not_negative (e : env) (p : params) (st : state e)
  (o : float) :
  objective e p st = Ok o -> F.ltb o F.zero = false.
Proof.
  unfold objective. intros Ho. bind_inv Ho as WH HWH. bind_inv Ho as R HR.
  injection Ho as <-. apply sign_clear_cases. unfold Mat.sum.
  apply sum_sign. apply List.Forall_forall. intros x Hx.
  unfold Mat.entries in Hx. apply in_flat_map in Hx as (i & _ & Hx).
  apply in_map_iff in Hx as (j & <- & _). cbn [Mat.map item].
  apply mul_self_sign.
Qed.

Lemma objective_not_negative_witness :
  exists o, objective test_env (_set_params job_plain) state_ones = Ok o
            /\ F.ltb o F.zero = false.
Proof.
  destruct (objective test_env (_set_params job_plain) state_ones)
    as [o|err] eqn:Ho.
  - exists o. split; [reflexivity|].
    exact (objective_not_negative test_env (_set_params job_plain) state_ones
             o Ho).
  - exfalso. apply (is_Ok_Raise _ _ Ho). vm_compute. reflexivity.
Defined.

(** ** Runs of a job *)

Section JobFacts.

Variable e : env.

(** What a returned fit is made of: the accumulator of the loop over the
    runs and the loop state of the last run. *)
Lemma factorize_runs (j : job) (g : rng e) (f : fit e) :
  factorize e j g = Ok f ->
  exists v acc ls,
    job_v (_set_params j) = Ok v
    /\ for_each (xrange (job_n_run j))
         (fun _ => one_run e (_set_params j) v)
         {| last := None; carried_sigma := sigma_init (_set_params j);
            carried_gen := g; callbacks := []; tracked := [] |} = Ok acc
    /\ last acc = Some ls
    /\ fitted f = cur ls /\ n_iter f = iter ls - 1 /\ final_obj f = cobj ls
    /\ fit_callbacks f = callbacks acc /\ fit_tracked f = tracked acc.
Proof.
  unfold factorize. intros Hrun. bind_inv Hrun as v Hv.
  bind_inv Hrun as acc Hacc.
  destruct (last acc) as [ls|] eqn:Hlast; [|discriminate].
  injection Hrun as <-. exists v, acc, ls.
  cbn [fitted n_iter final_obj fit_callbacks fit_tracked].
  repeat split; assumption.
Qed.

(** What one run adds to the record of callbacks and to the tracker. *)
Lemma one_run_records (p : params) (v : float) (acc acc' : runs e) :
  one_run e p v acc = Ok acc' ->
  exists ls,
    last acc' = Some ls
    /\ carried_sigma acc' = sigma (cur ls)
    /\ callbacks acc'
       = (if callback p then callbacks acc ++ [cobj ls] else callbacks acc)
    /\ tracked acc'
       = (if tracker p
          then tracked acc ++ [(W (cur ls), H (cur ls), sigma (cur ls))]
          else tracked acc).
Proof.
  unfold one_run.
  destruct (seed_initialize e (V p) (rank p) (opts p) (carried_gen acc))
    as [[W0 H0] g1].
  intros Hone. bind_inv Hone as o Ho. bind_inv Hone as ls Hls.
  injection Hone as <-. exists ls. cbn [last carried_sigma callbacks tracked].
  auto.
Qed.

(** The records after a number of runs. *)
Lemma runs_records_length (p : params) (v : float) (xs : list nat)
  (acc acc' : runs e) :
  for_each xs (fun _ => one_run e p v) acc = Ok acc' ->
  length (tracked acc')
  = (length (tracked acc) + if tracker p then length xs else 0)%nat
  /\ length (callbacks acc')
     = (length (callbacks acc) + if callback p then length xs else 0)%nat.
Proof.
  revert acc. induction xs as [|x xs IH]; intros acc Hrun; simpl in Hrun.
  - injection Hrun as <-. destruct (tracker p), (callback p); simpl; lia.
  - bind_inv Hrun as t Ht. apply IH in Hrun as [IHt IHc].
    apply one_run_records in Ht as (ls & _ & _ & Hc & Htr).
    rewrite IHt, IHc, Hc, Htr.
    destruct (tracker p), (callback p); rewrite ?length_app; simpl; lia.
Qed.

End JobFacts.

(** X2: a job with no run (n_run at most 0) does not return a fit: the
    count of iterations it is to report was never bound, and it raises. *)
Theorem factorize_without_runs (e : env) (j : job) (g : rng e) :
  job_n_run j <= 0 -> factorize e j g = Raise UnboundLocalError.
Proof.
  intros Hn. unfold factorize, job_v, multiply, Mat.zip_with.
  rewrite !Nat.eqb_refl. cbn [andb mbind result_bind _set_params n_run].
  unfold xrange. replace (Z.to_nat (job_n_run j)) with 0%nat by lia.
  reflexivity.
Qed.

Lemma factorize_without_runs_witness :
  factorize test_env job_no_run 0%nat = Raise UnboundLocalError.
Proof.
  apply (factorize_without_runs test_env job_no_run 0%nat).
  cbn. lia.
Defined.

(** X3: the tracker is given one state per run, and only when tracking is
    asked for and there is more than one run; the last state it is given is
    the one the fit holds.  The callback is called once per run when there
    is one. *)
Theorem factorize_records (e : env) (j : job) (g : rng e) (f : fit e) :
  factorize e j g = Ok f ->
  length (fit_tracked f)
  = (if get_default (opt_track (job_options j)) false && (1 <? job_n_run j)
     then Z.to_nat (job_n_run j) else 0%nat)
  /\ length (fit_callbacks f)
     = (if job_callback j then Z.to_nat (job_n_run j) else 0%nat)
  /\ (get_default (opt_track (job_options j)) false && (1 <? job_n_run j)
      = true ->
      List.last (fit_tracked f) (W (fitted f), H (fitted f), sigma (fitted f))
      = (W (fitted f), H (fitted f), sigma (fitted f))
      /\ fit_tracked f <> [])
  /\ (job_callback j = true ->
      List.last (fit_callbacks f) F.zero = final_obj f).
Proof.
  intros Hf.
  pose proof (factorize_last e j g f Hf)
    as (v' & acc0 & ls' & _ & Hone & Hfit' & _ & Hobj').
  apply factorize_runs in Hf
    as (v & acc & ls & _ & Hacc & Hlast & Hfit & _ & Hobj & Hcb & Htr).
  rewrite Htr, Hcb.
  change (get_default (opt_track (job_options j)) false && (1 <? job_n_run j))
    with (tracker (_set_params j)).
  change (job_callback j) with (callback (_set_params j)).
  assert (Hlen : length (xrange (job_n_run j)) = Z.to_nat (job_n_run j))
    by (unfold xrange; apply length_seq).
  pose proof (runs_records_length e _ _ _ _ _ Hacc) as [Hlt Hlc].
  cbn [tracked callbacks length] in Hlt, Hlc.
  split; [|split; [|split]].
  - rewrite Hlt. destruct (tracker (_set_params j)); lia.
  - rewrite Hlc. destruct (callback (_set_params j)); lia.
  - intros Htk.
    apply one_run_records in Hone as (l0 & Hl0 & _ & _ & Hone).
    cbn [last tracked] in Hl0, Hone. injection Hl0 as <-.
    rewrite Htk in Hone. rewrite <- Htr, Hone, Hfit'. split.
    + apply last_last.
    + intros Hnil. apply app_eq_nil in Hnil as [_ Hnil]. discriminate.
  - intros Hc.
    apply one_run_records in Hone as (l0 & Hl0 & _ & Hone & _).
    cbn [last callbacks] in Hl0, Hone. injection Hl0 as <-.
    rewrite Hc in Hone. rewrite <- Hcb, Hone, Hobj'. apply last_last.
Qed.

Lemma factorize_records_witness :
  exists f,
    factorize test_env job_three_runs 0%nat = Ok f
    /\ length (fit_tracked f) = 3%nat /\ length (fit_callbacks f) = 3%nat.
Proof.
  destruct (factorize test_env job_three_runs 0%nat) as [f|err] eqn:Hf.
  - exists f. split; [reflexivity|].
    destruct (factorize_records test_env job_three_runs 0%nat f Hf)
      as (Ht & Hc & _).
    split; [exact Ht | exact Hc].
  - exfalso. apply (is_Ok_Raise _ _ Hf). vm_compute. reflexivity.
Defined.

(** ** What a job keeps over its runs *)

Section JobInvariants.

Variable e : env.

(** An invariant of the sweeps holds for the state a run ends in. *)
Lemma one_run_inv (P : state e -> Prop) (p : params) (v : float)
  (acc acc' : runs e) (ls : loop_state e) :
  (forall t t', P t -> sweep e p v t = Ok t' -> P t') ->
  (forall W0 H0 g1,
     P {| W := W0; H := H0; sigma := carried_sigma acc; gen := g1;
          sweeps := 0 |}) ->
  one_run e p v acc = Ok acc' -> last acc' = Some ls -> P (cur ls).
Proof.
  intros Hstep Hinit Hone Hlast.
  apply one_run_loop in Hone as (o & ls' & _ & Hloop & Hlast').
  rewrite Hlast in Hlast'. injection Hlast' as <-.
  refine (proj1 (while_loop_inv e (fun l => P (cur l)) _ _ _ _ _ _ _ Hloop)).
  - intros l st' c Hl _ Hup _. cbn [cur].
    apply (update_inv e P p v (iter l) (cur l) st' Hstep Hl Hup).
  - cbn [cur]. apply Hinit.
Qed.

End JobInvariants.

(** X4: with sigma frozen, the sigma of the returned fit is the configured
    initial value (1 when none is given), whatever the number of runs:
    sigma is set by the parameter setup only and carried from run to run. *)
Theorem factorize_frozen_sigma (e : env) (j : job) (g : rng e) (f : fit e) :
  get_default (opt_n_sigma (job_options j)) false = true ->
  factorize e j g = Ok f ->
  sigma (fitted f) = get_default (opt_sigma (job_options j)) F.one.
Proof.
  intros Hfrozen Hf.
  apply factorize_runs in Hf
    as (v & acc & ls & _ & Hacc & Hlast & -> & _).
  change (get_default (opt_sigma (job_options j)) F.one)
    with (sigma_init (_set_params j)).
  assert (Hinv : carried_sigma acc = sigma_init (_set_params j)
                 /\ forall l, last acc = Some l ->
                              sigma (cur l) = sigma_init (_set_params j)).
  { revert Hacc.
    apply (for_each_inv
             (fun a => carried_sigma a = sigma_init (_set_params j)
                       /\ forall l, last a = Some l ->
                            sigma (cur l) = sigma_init (_set_params j))).
    - intros x t t' _ [Hc _] Hone.
      assert (Hl : forall l, last t' = Some l ->
                     sigma (cur l) = sigma_init (_set_params j)).
      { intros l Hl.
        apply (one_run_inv e
                 (fun s => sigma s = sigma_init (_set_params j))
                 _ _ _ _ l) in Hone; auto.
        intros s s' Hs Hsw. apply sweep_frame in Hsw.
        destruct Hsw as (_ & _ & _ & _ & _ & _ & _ & Hsig & _).
        rewrite (Hsig Hfrozen). exact Hs. }
      split; [|exact Hl].
      apply one_run_records in Hone as (l & Hlast' & Hcs & _).
      rewrite Hcs. apply Hl, Hlast'.
    - split; [reflexivity | discriminate]. }
  apply Hinv, Hlast.
Qed.

Lemma factorize_frozen_sigma_witness :
  exists f,
    factorize test_env job_three_runs 0%nat = Ok f
    /\ sigma (fitted f) = F.one.
Proof.
  destruct (factorize test_env job_three_runs 0%nat) as [f|err] eqn:Hf.
  - exists f. split; [reflexivity|].
    exact (factorize_frozen_sigma test_env job_three_runs 0%nat f eq_refl Hf).
  - exfalso. apply (is_Ok_Raise _ _ Hf). vm_compute. reflexivity.
Defined.

(** X5: the factors of a returned fit have the shapes the seeding strategy
    gave them: W is m x rank and H is rank x n when the seeds are. *)
Theorem factorize_shapes (e : env) (j : job) (g : rng e) (f : fit e) :
  seeds_shaped e ->
  factorize e j g = Ok f ->
  shape0 (W (fitted f)) = shape0 (job_V j)
  /\ shape1 (W (fitted f)) = job_rank j
  /\ shape0 (H (fitted f)) = job_rank j
  /\ shape1 (H (fitted f)) = shape1 (job_V j).
Proof.
  intros Hseeds Hf.
  apply factorize_last in Hf as (v & acc & ls & _ & Hone & -> & _).
  apply one_run_loop in Hone as (o & ls' & _ & Hloop & Hlast).
  cbn [last] in Hlast. injection Hlast as ->.
  refine (proj1 (while_loop_inv e
            (fun l => shape0 (W (cur l)) = shape0 (job_V j)
                      /\ shape1 (W (cur l)) = job_rank j
                      /\ shape0 (H (cur l)) = job_rank j
                      /\ shape1 (H (cur l)) = shape1 (job_V j))
            _ _ _ _ _ _ _ Hloop)).
  - intros l st' c Hl _ Hup _. cbn [cur]. revert Hup.
    apply (update_inv e
             (fun t => shape0 (W t) = shape0 (job_V j)
                       /\ shape1 (W t) = job_rank j
                       /\ shape0 (H t) = job_rank j
                       /\ shape1 (H t) = shape1 (job_V j))); [|exact Hl].
    intros t t' (T1 & T2 & T3 & T4) Hsw.
    apply sweep_frame in Hsw as (_ & S1 & S2 & S3 & S4 & _).
    repeat split; congruence.
  - cbn [cur W H]. apply (Hseeds (job_V j) (job_rank j)).
Qed.

Lemma factorize_shapes_witness :
  exists f,
    factorize test_env job_plain 0%nat = Ok f
    /\ shape0 (W (fitted f)) = 2%nat /\ shape1 (W (fitted f)) = 2%nat
    /\ shape0 (H (fitted f)) = 2%nat /\ shape1 (H (fitted f)) = 1%nat.
Proof.
  destruct (factorize test_env job_plain 0%nat) as [f|err] eqn:Hf.
  - exists f. split; [reflexivity|].
    exact (factorize_shapes test_env job_plain 0%nat f test_env_seeds_shaped
             Hf).
  - exfalso. apply (is_Ok_Raise _ _ Hf). vm_compute. reflexivity.
Defined.

(** ** The first pass of a run *)

Section FirstPass.

Variable e : env.

(** At counter 0 the stopping rule looks at max_iter only. *)
Lemma _is_satisfied_first (p : params) (pobj cobj : float) :
  _is_satisfied p pobj cobj 0
  = match max_iter p with
    | Some mi => negb (mi <? 0)
    | None => true
    end.
Proof.
  unfold _is_satisfied. cbn [Z.ltb Z.compare andb].
  destruct (max_iter p) as [mi|].
  - destruct (Z.eqb_spec mi 0) as [->|Hne]; cbn [negb andb].
    + destruct (min_residuals p) as [r|];
        [rewrite andb_false_r|]; reflexivity.
    + destruct (mi <? 0); cbn [negb];
        [reflexivity|].
      destruct (min_residuals p) as [r|];
        [rewrite andb_false_r|]; reflexivity.
  - destruct (min_residuals p) as [r|];
      [rewrite andb_false_r|]; reflexivity.
Qed.

(** The counter of a loop does not go down. *)
Lemma while_loop_iter (p : params) (v : float) (fuel : nat)
  (ls ls' : loop_state e) :
  while_loop e fuel p v ls = Ok ls' -> iter ls <= iter ls'.
Proof.
  intros Hrun.
  refine (proj1 (while_loop_inv e (fun l => iter ls <= iter l)
                   p v fuel ls ls' _ (Z.le_refl _) Hrun)).
  intros l st' c Hl _ _ _. cbn [iter]. lia.
Qed.

End FirstPass.

(** X6: a negative max_iter is kept by the parameter setup and stops every
    run before its first pass: the job makes no sweep, reports n_iter = -1
    and returns the factors as the seeding strategy gave them, with their
    objective. *)
Theorem factorize_negative_max_iter (e : env) (j : job) (g : rng e)
  (f : fit e) (mi : Z) :
  job_max_iter j = Some mi -> mi < 0 ->
  factorize e j g = Ok f ->
  n_iter f = -1 /\ sweeps (fitted f) = 0%nat
  /\ exists g0,
       W (fitted f)
       = fst (fst (seed_initialize e (job_V j) (job_rank j) (job_options j) g0))
       /\ H (fitted f)
          = snd (fst (seed_initialize e (job_V j) (job_rank j)
                                      (job_options j) g0))
       /\ objective e (_set_params j) (fitted f) = Ok (final_obj f).
Proof.
  intros Hmi Hneg Hf.
  apply factorize_last in Hf as (v & acc & ls & _ & Hone & -> & -> & ->).
  apply one_run_loop in Hone as (o & ls' & Hobj & Hloop & Hlast).
  cbn [last] in Hlast. injection Hlast as ->.
  rewrite while_loop_stops in Hloop.
  - injection Hloop as <-. cbn [iter cur sweeps W H cobj].
    repeat split. exists (carried_gen acc). repeat split. exact Hobj.
  - cbn [pobj cobj iter]. rewrite _is_satisfied_first.
    cbn [_set_params max_iter]. rewrite Hmi. cbn [truthy_int].
    destruct (Z.eqb_spec mi 0); [lia|]. cbn [negb].
    destruct (Z.ltb_spec mi 0); [reflexivity | lia].
Qed.

Lemma factorize_negative_max_iter_witness :
  exists f,
    factorize test_env job_negative 0%nat = Ok f
    /\ n_iter f = -1 /\ sweeps (fitted f) = 0%nat.
Proof.
  destruct (factorize test_env job_negative 0%nat) as [f|err] eqn:Hf.
  - exists f. split; [reflexivity|].
    destruct (factorize_negative_max_iter test_env job_negative 0%nat f (-1)
                eq_refl eq_refl Hf) as (Hn & Hs & _).
    split; [exact Hn | exact Hs].
  - exfalso. apply (is_Ok_Raise _ _ Hf). vm_compute. reflexivity.
Defined.

(** X7: unless max_iter is negative, every run makes its first pass: a
    returned fit reports n_iter >= 0 and its last run has made the burn-in
    sweeps at least. *)
Theorem factorize_first_pass (e : env) (j : job) (g : rng e) (f : fit e) :
  (forall mi, job_max_iter j = Some mi -> 0 <= mi) ->
  factorize e j g = Ok f ->
  0 <= n_iter f
  /\ (Z.to_nat (get_default (opt_skip (job_options j)) 100%Z)
      <= sweeps (fitted f))%nat.
Proof.
  intros Hmax Hf.
  apply factorize_last in Hf as (v & acc & ls & _ & Hone & -> & -> & _).
  apply one_run_loop in Hone as (o & ls' & _ & Hloop & Hlast).
  cbn [last] in Hlast. injection Hlast as ->.
  assert (Hsw : 0 <= iter ls'
                /\ sweeps (cur ls') = sweeps_after (_set_params j) (iter ls')).
  { refine (while_loop_sweeps e _ _ _ _ _ _ _ Hloop); cbn [iter cur sweeps];
      [lia | reflexivity]. }
  assert (Hone : 1 <= iter ls').
  { destruct (_set_params_max_iter j) as (Hset & mi & Hmi & Hz).
    unfold loop_fuel in Hloop. rewrite Hmi in Hloop.
    cbn [while_loop pobj cobj iter cur] in Hloop.
    rewrite _is_satisfied_first, Hmi in Hloop.
    assert (Hpos : 0 <= mi).
    { rewrite Hset in Hmi. destruct (job_max_iter j) as [mj|] eqn:Hj;
        cbn [truthy_int] in Hmi.
      - destruct (Z.eqb_spec mj 0); cbn [negb] in Hmi;
          injection Hmi as <-; [lia | apply Hmax; reflexivity].
      - injection Hmi as <-. lia. }
    destruct (Z.ltb_spec mi 0); [lia|]. cbn [negb] in Hloop.
    bind_inv Hloop as st' Hst'. bind_inv Hloop as c Hc.
    apply while_loop_iter in Hloop. cbn [iter] in Hloop. lia. }
  destruct Hsw as (_ & Hsw). split; [lia|].
  rewrite Hsw. unfold sweeps_after.
  destruct (Z.leb_spec (iter ls') 0); [lia|].
  change (skip (_set_params j))
    with (get_default (opt_skip (job_options j)) 100).
  apply Nat.le_add_r.
Qed.

Lemma factorize_first_pass_witness :
  exists f,
    factorize test_env job_plain 0%nat = Ok f
    /\ 0 <= n_iter f /\ (2 <= sweeps (fitted f))%nat.
Proof.
  destruct (factorize test_env job_plain 0%nat) as [f|err] eqn:Hf.
  - exists f. split; [reflexivity|].
    apply (factorize_first_pass test_env job_plain 0%nat f); [|exact Hf].
    intros mi [= <-]. lia.
  - exfalso. apply (is_Ok_Raise _ _ Hf). vm_compute. reflexivity.
Defined.

(** ** The sampler and the random source *)

(** X8: the sampler returns a vector of the length of the mean and takes
    exactly one uniform draw per entry from the random source. *)
Theorem sampler_shape (e : env) (m : vec) (s : float) (l : vec) (g g' : rng e)
  (x : vec) :
  _randr e m s l g = Ok (x, g') ->
  length x = length m /\ g' = snd (rand e (length m) g).
Proof.
  intros Hx. split; [apply (_randr_clean e m s l g g' x Hx)|].
  apply _randr_post in Hx as (c & Hc & _).
  pose proof (_randr_draw_shapes e _ _ _ _ _ Hc) as (Hl & r & Hr).
  rewrite (_randr_draw_entrywise e m r s l g Hl Hr) in Hc.
  injection Hc as _ <-. reflexivity.
Qed.

Lemma sampler_shape_witness :
  exists x,
    _randr test_env [F.of_Z 1; F.of_Z (-100); F.zero] F.one
           [F.zero; F.zero; F.zero] 7%nat = Ok (x, 10%nat)
    /\ length x = 3%nat.
Proof.
  destruct (_randr test_env [F.of_Z 1; F.of_Z (-100); F.zero] F.one
                   [F.zero; F.zero; F.zero] 7%nat) as [[x g']|err] eqn:Hx.
  - destruct (sampler_shape test_env _ _ _ _ _ _ Hx) as [Hlen ->].
    exists x. split; [reflexivity | exact Hlen].
  - exfalso. apply (is_Ok_Raise _ _ Hx). vm_compute. reflexivity.
Defined.

(** ** Runs that do not sample *)

Lemma leb_refl (x : float) : F.isnan x = false -> F.leb x x = true.
Proof.
  destruct x as [sg|sg| |sg m ex]; try destruct sg; try reflexivity;
    try discriminate; intros _; unfold F.leb, SFleb, SFcompare;
    rewrite Z.compare_refl, Pos.compare_cont_refl; reflexivity.
Qed.

Lemma recompute_first (p : params) : recompute p 0 = true.
Proof.
  unfold recompute. destruct (test_conv p) as [tc|]; [|reflexivity].
  rewrite Zmod_0_l. apply orb_true_r.
Qed.

Section NoBurnIn.

Variable e : env.

(** Without burn-in the first pass changes nothing and the second
    evaluation of the stopping rule sees no improvement. *)
Lemma while_loop_no_burn_in (p : params) (v : float) (fuel : nat)
  (st0 : state e) (o : float) (ls : loop_state e) :
  skip p <= 0 ->
  objective e p st0 = Ok o -> F.isnan o = false ->
  while_loop e fuel p v {| cur := st0; pobj := o; cobj := o; iter := 0 |}
  = Ok ls ->
  cur ls = st0 /\ iter ls <= 1 /\ cobj ls = o.
Proof.
  intros Hskip Hobj Hnan Hrun.
  destruct fuel as [|fuel]; cbn [while_loop pobj cobj iter cur] in Hrun;
    destruct (_is_satisfied p o o 0); try discriminate;
    try (injection Hrun as <-; cbn [cur iter cobj]; repeat split; lia).
  unfold update in Hrun. rewrite n_sweeps_first in Hrun.
  replace (Z.to_nat (skip p)) with 0%nat in Hrun by lia.
  cbn [repeat_step mbind result_bind] in Hrun.
  rewrite recompute_first, Hobj in Hrun. cbn [mbind result_bind] in Hrun.
  rewrite while_loop_stops in Hrun.
  - injection Hrun as <-. cbn [cur iter cobj]. repeat split. lia.
  - cbn [pobj cobj iter]. apply _is_satisfied_stop. right. right.
    split; [lia | apply leb_refl, Hnan].
Qed.

End NoBurnIn.

(** X9: with a burn-in of 0 (or less) a run does not sample at all when
    the objective of its seeds is a number: the first pass makes no sweep,
    the objective is what it was and the stopping rule ends the run, so the
    fit holds the seeded factors, the objective of the seeds and
    n_iter <= 0. *)
Theorem factorize_no_burn_in (e : env) (j : job) (g : rng e) (f : fit e) :
  get_default (opt_skip (job_options j)) 100 <= 0 ->
  factorize e j g = Ok f ->
  exists g0 s0 o,
    let sd := seed_initialize e (job_V j) (job_rank j) (job_options j) g0 in
    let st0 := {| W := fst (fst sd); H := snd (fst sd); sigma := s0;
                  gen := snd sd; sweeps := 0 |} in
    objective e (_set_params j) st0 = Ok o
    /\ (F.isnan o = false ->
        fitted f = st0 /\ n_iter f <= 0 /\ final_obj f = o).
Proof.
  intros Hskip Hf.
  apply factorize_last in Hf as (v & acc & ls & _ & Hone & -> & -> & ->).
  apply one_run_loop in Hone as (o & ls' & Hobj & Hloop & Hlast).
  cbn [last] in Hlast. injection Hlast as ->.
  exists (carried_gen acc), (carried_sigma acc), o. cbn zeta.
  split; [exact Hobj|]. intros Hnan.
  destruct (while_loop_no_burn_in e (_set_params j) v _ _ o ls' Hskip Hobj
              Hnan Hloop) as (Hcur & Hit & Hc).
  repeat split; [exact Hcur | lia | exact Hc].
Qed.

Lemma factorize_no_burn_in_witness :
  exists f,
    factorize test_env job_no_burn_in 0%nat = Ok f
    /\ n_iter f <= 0 /\ sweeps (fitted f) = 0%nat.
Proof.
  destruct (factorize test_env job_no_burn_in 0%nat) as [f|err] eqn:Hf.
  - exists f. split; [reflexivity|].
    destruct (factorize_no_burn_in test_env job_no_burn_in 0%nat f
                ltac:(cbn; lia) Hf) as (g0 & s0 & o & Hobj & Hrun).
    vm_compute in Hobj. injection Hobj as <-.
    destruct (Hrun eq_refl) as (Hfit & Hn & _).
    split; [exact Hn|]. rewrite Hfit. reflexivity.
  - exfalso. apply (is_Ok_Raise _ _ Hf). vm_compute. reflexivity.
Defined.

(** ** Sparse convergence checks *)

Section SparseChecks.

Variable e : env.

(** With test_conv above 1 the second pass keeps the objective of the first,
    and the stopping rule then ends the loop, unless that objective is
    NaN. *)
Lemma while_loop_sparse_checks (p : params) (v : float) (tc : Z) (fuel : nat)
  (st0 : state e) (o : float) (ls : loop_state e) :
  test_conv p = Some tc -> 1 < tc ->
  while_loop e fuel p v {| cur := st0; pobj := o; cobj := o; iter := 0 |}
  = Ok ls ->
  iter ls <= 2
  \/ exists st1 c1,
       update e p v 0 st0 = Ok st1 /\ objective e p st1 = Ok c1
       /\ F.isnan c1 = true.
Proof.
  intros Htc Hgt Hrun.
  destruct fuel as [|fuel]; cbn [while_loop pobj cobj iter cur] in Hrun;
    destruct (_is_satisfied p o o 0); try discriminate;
    try (injection Hrun as <-; left; cbn [iter]; lia).
  bind_inv Hrun as st1 Hst1. rewrite recompute_first in Hrun.
  bind_inv Hrun as c1 Hc1.
  destruct (F.isnan c1) eqn:Hnan; [right; exists st1, c1; auto|]. left.
  destruct fuel as [|fuel]; cbn [while_loop pobj cobj iter cur] in Hrun;
    destruct (_is_satisfied p o c1 (0 + 1)); try discriminate;
    try (injection Hrun as <-; cbn [iter]; lia).
  bind_inv Hrun as st2 Hst2.
  assert (Hrec : recompute p (0 + 1) = false).
  { unfold recompute. rewrite Htc. cbn [truthy_int].
    destruct (Z.eqb_spec tc 0); [lia|]. cbn [negb orb].
    change (0 + 1) with 1. rewrite Z.mod_1_l by exact Hgt. reflexivity. }
  rewrite Hrec in Hrun. cbn [mbind result_bind] in Hrun.
  rewrite while_loop_stops in Hrun.
  - injection Hrun as <-. cbn [iter]. lia.
  - cbn [pobj cobj iter]. apply _is_satisfied_stop. right. right.
    split; [lia | apply leb_refl, Hnan].
Qed.

End SparseChecks.



(** ** Targets with more than one column *)

Section WideTargets.

Variable e : env.
Hypothesis Hbenign : benign e.
Hypothesis Hseeds : seeds_shaped e.

(** The first pass of a run raises when its sweeps do. *)
Lemma one_run_raises (j : job) (v : float) (acc : runs e) (n : nat) :
  well_shaped j = true ->
  shape1 (job_V j) <> 1%nat ->
  (n < job_rank j)%nat -> n_h (_set_params j) !! n = Some false ->
  0 < skip (_set_params j) ->
  (forall mi, job_max_iter j = Some mi -> 0 <= mi) ->
  one_run e (_set_params j) v acc = Raise IndexError.
Proof.
  intros Hws Hwide Hn Hfree Hskip Hmax. unfold one_run.
  pose proof (Hseeds (V (_set_params j)) (rank (_set_params j))
                (opts (_set_params j)) (carried_gen acc)) as Hs.
  destruct (seed_initialize e (V (_set_params j)) (rank (_set_params j))
              (opts (_set_params j)) (carried_gen acc)) as [[W0 H0] g1].
  cbn [fst snd] in Hs. destruct Hs as (S1 & S2 & S3 & S4).
  set (st0 := {| W := W0; H := H0; sigma := carried_sigma acc; gen := g1;
                 sweeps := 0 |}).
  assert (Hsh : shaped (_set_params j) st0)
    by (apply _set_params_shaped; assumption).
  destruct (objective_total e _ _ Hsh) as (o & ->). cbn [mbind result_bind].
  destruct (_set_params_max_iter j) as (Hset & mi & Hmi & Hz).
  assert (Hpos : 0 <= mi).
  { rewrite Hset in Hmi. destruct (job_max_iter j) as [mj|] eqn:Hj;
      cbn [truthy_int] in Hmi.
    - destruct (Z.eqb_spec mj 0); cbn [negb] in Hmi;
        injection Hmi as <-; [lia | apply Hmax; reflexivity].
    - injection Hmi as <-. lia. }
  unfold loop_fuel. rewrite Hmi. cbn [while_loop pobj cobj iter cur].
  rewrite _is_satisfied_first, Hmi.
  destruct (Z.ltb_spec mi 0); [lia|]. cbn [negb].
  rewrite (update_raises e Hbenign (_set_params j) v 0 st0 n Hsh Hwide Hn
             Hfree); [reflexivity|].
  rewrite n_sweeps_first. lia.
Qed.

End WideTargets.





(** ** What a sweep that returns tells about the target *)

(** Every pass of a loop that returns has returned. *)
Lemma for_each_each {A S : Type} (body : A -> S -> result S) (xs : list A)
  (s s' : S) :
  for_each xs body s = Ok s' ->
  forall x, In x xs -> exists t t', body x t = Ok t'.
Proof.
  revert s. induction xs as [|y xs IH]; intros s Hrun x Hx; [destruct Hx|].
  cbn [for_each] in Hrun. bind_inv Hrun as t Ht.
  destruct Hx as [<-|Hx]; [exists s, t; exact Ht | apply (IH t Hrun x Hx)].
Qed.

Section Narrow.

Variable e : env.

(** The mean of a row step has one entry per column of [F]. *)
Lemma mixture_mean_length (p : params) (E Fm : matrix) (n : nat)
  (st : state e) (m : vec) :
  mixture_mean e p E Fm n st = Ok m -> length m = shape1 Fm.
Proof.
  unfold mixture_mean. intros Hrun. bind_inv Hrun as Fn HFn.
  bind_inv Hrun as Enn HEnn. bind_inv Hrun as Hnn HHnn.
  bind_inv Hrun as prod Hprod. bind_inv Hrun as diff Hdiff.
  bind_inv Hrun as enn Henn. injection Hrun as <-.
  apply zip_with_length in Hdiff as [_ Hdiff].
  unfold Mat.row in HFn. destruct (n <? shape0 Fm)%nat; [|discriminate].
  injection HFn as <-.
  unfold sop. rewrite length_map, Hdiff, length_map, length_seq. reflexivity.
Qed.

(** The step for a free row of H returns only when [F] has one column. *)
Lemma update_mixture_row_narrow (p : params) (E Fm : matrix) (n : nat)
  (st st' : state e) :
  update_mixture_row e p E Fm n st = Ok st' ->
  exists b, n_h p !! n = Some b /\ (b = false -> shape1 Fm = 1%nat).
Proof.
  unfold update_mixture_row. intros Hrun. bind_inv Hrun as b Hb.
  apply mask_at_some in Hb. exists b. split; [exact Hb|]. intros ->.
  bind_inv Hrun as m Hm. bind_inv Hrun as enn Henn. bind_inv Hrun as l Hl.
  bind_inv Hrun as [temp g'] Htemp.
  apply _randr_transposed_inv in Htemp as (_ & _ & Hone).
  rewrite <- (mixture_mean_length _ _ _ _ _ _ Hm). exact Hone.
Qed.

(** A sweep returns only when the pass over the rows of H can go
    through. *)
Lemma sweep_narrow (p : params) (v : float) (st st' : state e) :
  sweep e p v st = Ok st' -> rows_drawable p.
Proof.
  intros Hrun.
  apply sweep_passes in Hrun
    as (C & D & st1 & st2 & E & Fm & st3 & _ & _ & _ & _ & _ & HF & Hm & _).
  assert (HF1 : shape1 Fm = shape1 (V p)).
  { unfold dot in HF. destruct (_ =? _)%nat; [|discriminate].
    injection HF as <-. reflexivity. }
  unfold update_mixture in Hm.
  destruct (Nat.eq_dec (shape1 (V p)) 1%nat) as [Hone|Hwide]; [left; exact Hone|].
  right. intros n Hn.
  destruct (for_each_each _ _ _ _ Hm n) as (t & t' & Hstep);
    [apply in_xrange; lia|].
  apply update_mixture_row_narrow in Hstep as ([|] & Hb & Hnarrow);
    [exact Hb|].
  exfalso. apply Hwide. rewrite <- HF1. apply Hnarrow. reflexivity.
Qed.

End Narrow.

(** X16: a sweep that returns, a call of the update step that makes a sweep
    and returns, and a fit returned by a job with a burn-in and a max_iter
    that is not negative all tell that the pass over the rows of H could go
    through: the target has exactly one column, or every row of H is
    frozen. *)
Theorem sweep_needs_drawable_rows (e : env) (p : params) (v : float) :
  (forall st st', sweep e p v st = Ok st' -> rows_drawable p)
  /\ (forall it st st',
        (0 < n_sweeps p it)%nat -> update e p v it st = Ok st' ->
        rows_drawable p)
  /\ (forall j g f,
        p = _set_params j ->
        0 < skip p -> (forall mi, job_max_iter j = Some mi -> 0 <= mi) ->
        factorize e j g = Ok f -> rows_drawable p).
Proof.
  assert (Hup : forall it st st',
             (0 < n_sweeps p it)%nat -> update e p v it st = Ok st' ->
             rows_drawable p).
  { intros it st st' Hsw Hrun. unfold update in Hrun.
    destruct (n_sweeps p it) as [|k]; [lia|]. cbn [repeat_step] in Hrun.
    bind_inv Hrun as t Ht. apply (sweep_narrow e p v st t Ht). }
  split; [apply sweep_narrow|]. split; [exact Hup|].
  intros j g f -> Hskip Hmax Hf.
  apply factorize_last in Hf as (v' & acc & ls & _ & Hone & _).
  apply one_run_loop in Hone as (o & ls' & _ & Hloop & _).
  destruct (_set_params_max_iter j) as (Hset & mi & Hmi & Hz).
  assert (Hpos : 0 <= mi).
  { rewrite Hset in Hmi. destruct (job_max_iter j) as [mj|] eqn:Hj;
      cbn [truthy_int] in Hmi.
    - destruct (Z.eqb_spec mj 0); cbn [negb] in Hmi;
        injection Hmi as <-; [lia | apply Hmax; reflexivity].
    - injection Hmi as <-. lia. }
  unfold loop_fuel in Hloop. rewrite Hmi in Hloop.
  cbn [while_loop pobj cobj iter cur] in Hloop.
  rewrite _is_satisfied_first, Hmi in Hloop.
  destruct (Z.ltb_spec mi 0); [lia|]. cbn [negb] in Hloop.
  bind_inv Hloop as st1 Hst1.
  assert (Hsw : (0 < n_sweeps (_set_params j) 0)%nat)
    by (rewrite n_sweeps_first; lia).
  clear - Hst1 Hsw.
  unfold update in Hst1.
  destruct (n_sweeps (_set_params j) 0) as [|k]; [lia|].
  cbn [repeat_step] in Hst1. bind_inv Hst1 as t Ht.
  apply (sweep_narrow e _ _ _ t Ht).
Qed.

Lemma sweep_needs_drawable_rows_witness :
  rows_drawable (_set_params job_plain).
Proof.
  destruct (is_Ok_inv (factorize test_env job_plain 0%nat)) as [f Hf];
    [vm_compute; reflexivity|].
  refine (proj2 (proj2 (sweep_needs_drawable_rows test_env
                          (_set_params job_plain) F.zero))
            job_plain 0%nat f eq_refl _ _ Hf).
  - cbn. lia.
  - intros mi [= <-]. lia.
Defined.

(** ** What a column step writes *)

(** A column write puts the entries of the vector, in order, into the
    column. *)
Lemma write_col_written (A A' : matrix) (n : nat) (temp : vec) :
  write_col A n temp = Ok A' ->
  forall j, (j < shape0 A)%nat -> temp !! j = Some (item A' j n).
Proof.
  unfold write_col. intros Hrun j Hj.
  assert (Hgen : forall xs B B',
             List.NoDup xs ->
             for_each xs (fun j A' => x ← Vec.get temp j; Mat.set A' j n x) B
             = Ok B' ->
             forall i, In i xs -> temp !! i = Some (item B' i n)).
  { clear. induction xs as [|k xs IH]; intros B B' Hnd Hrun i Hi;
      [destruct Hi|].
    cbn [for_each] in Hrun. bind_inv Hrun as B1 HB1. bind_inv HB1 as x Hx.
    apply get_some in Hx. apply set_frame in HB1 as (_ & _ & Hset & _).
    apply List.NoDup_cons_iff in Hnd as [Hk Hnd].
    destruct Hi as [<-|Hi]; [|apply (IH B1 B' Hnd Hrun i Hi)].
    assert (Hkeep : item B' k n = item B1 k n).
    { revert Hrun.
      apply (for_each_inv (fun M => item M k n = item B1 k n));
        [|reflexivity].
      intros i M M' Hi HM Hstep. bind_inv Hstep as y Hy.
      apply set_frame in Hstep as (_ & _ & _ & Hother).
      rewrite Hother; [exact HM|]. left. intros ->. exact (Hk Hi). }
    rewrite Hkeep, Hset. exact Hx. }
  apply (Hgen _ _ _ (List.seq_NoDup _ _) Hrun). apply in_xrange. lia.
Qed.

(** X15: the step for a free column [n] of W calls the sampler once, on the
    mean the index list gives, the variance sigma / C[n, n] and column [n]
    of alpha, with the random source as it stands; it writes the vector
    returned, entry by entry, into column [n] of W, and leaves the random
    source one uniform draw per entry further. *)
Theorem update_basis_col_writes (e : env) (p : params) (C D : matrix)
  (n : nat) (st st' : state e) :
  n_w p !! n = Some false ->
  update_basis_col e p C D n st = Ok st' ->
  exists m cnn l temp,
    basis_mean e p C D n st = Ok m
    /\ Mat.get C n n = Ok cnn
    /\ Mat.col (alpha p) n = Ok l
    /\ _randr e m (F.div (sigma st) cnn) l (gen st) = Ok (temp, gen st')
    /\ (forall j, (j < shape0 (W st))%nat ->
                  temp !! j = Some (item (W st') j n))
    /\ gen st' = snd (rand e (length m) (gen st)).
Proof.
  intros Hfree Hrun. unfold update_basis_col, mask_at in Hrun.
  rewrite Hfree in Hrun. cbn [mbind result_bind] in Hrun.
  bind_inv Hrun as m Hm. bind_inv Hrun as cnn Hcnn. bind_inv Hrun as l Hl.
  bind_inv Hrun as [temp g'] Htemp. bind_inv Hrun as W' HW'.
  injection Hrun as <-. cbn [W gen].
  exists m, cnn, l, temp. repeat split; try assumption.
  - apply (write_col_written _ _ _ _ HW').
  - apply _randr_post in Htemp as (c & Hc & _).
    pose proof (_randr_draw_shapes e _ _ _ _ _ Hc) as (Hlen & r & Hr).
    rewrite (_randr_draw_entrywise e m r _ l (gen st) Hlen Hr) in Hc.
    injection Hc as _ <-. reflexivity.
Qed.

Lemma update_basis_col_writes_witness :
  exists (st' : state test_env) (temp : vec),
    update_basis_col test_env (_set_params job_plain) (ones 2 2) (ones 2 2)
      0 state_ones = Ok st'
    /\ temp !! 0%nat = Some (item (W st') 0%nat 0%nat)
    /\ temp !! 1%nat = Some (item (W st') 1%nat 0%nat).
Proof.
  destruct (is_Ok_inv (update_basis_col test_env (_set_params job_plain)
                         (ones 2 2) (ones 2 2) 0 state_ones)) as [st' Hst'];
    [vm_compute; reflexivity|].
  destruct (update_basis_col_writes test_env (_set_params job_plain)
              (ones 2 2) (ones 2 2) 0 state_ones st' eq_refl Hst')
    as (m & cnn & l & temp & _ & _ & _ & _ & Hw & _).
  exists st', temp. split; [exact Hst'|].
  split; apply Hw; cbn; lia.
Defined.

(** ** The preprocessing of the faces example *)

(** Clipping to the interval from 0 to 1 leaves NaN or a value in the
    interval. *)
Lemma clip_range (y : float) :
  let x := np_maximum (np_minimum y F.one) F.zero in
  F.isnan x = true \/ (F.leb F.zero x = true /\ F.leb x F.one = true).
Proof.
  cbn zeta. unfold np_minimum.
  destruct (F.isnan y) eqn:Hnan.
  - rewrite orb_true_r. unfold np_maximum. rewrite Hnan, orb_true_r.
    left. exact Hnan.
  - rewrite orb_false_r. destruct (F.leb y F.one) eqn:Hle.
    + unfold np_maximum. rewrite Hnan, orb_false_r.
      destruct (F.leb F.zero y) eqn:Hge; right; auto.
    + right. split; reflexivity.
Qed.

(** X14: whatever the mean of a matrix is taken to be, [preprocess] keeps
    the shape of the matrix, and every entry of its result is NaN or lies
    between 0 and 1. *)
Theorem preprocess_clipped (mean : matrix -> float) (V : matrix) (i j : nat) :
  shape0 (preprocess mean V) = shape0 V
  /\ shape1 (preprocess mean V) = shape1 V
  /\ (F.isnan (item (preprocess mean V) i j) = true
      \/ (F.leb F.zero (item (preprocess mean V) i j) = true
          /\ F.leb (item (preprocess mean V) i j) F.one = true)).
Proof.
  split; [reflexivity|]. split; [reflexivity|].
  unfold preprocess. cbn [Mat.map item]. apply clip_range.
Qed.
